(** * Silent Lease: authentication and per-user application state

    A shallow embedding of the client-side script of the Silent Lease
    application (registration, login and profile update over
    [localStorage], the validation of the form fields and the password
    strength, the per-user storage suffix, the merged application state,
    the task tracker, the days until the move-out, the housing form, the
    guard of the pages, the local tenant tip), followed by the properties
    of the specification that it settles and by further properties of the
    code.

    Conventions of the embedding.
    - A JavaScript string is a [string] whose characters are the code
      units 0 to 255 (the Latin-1 range of UTF-16); the builtins
      [toLowerCase] and [trim] and the character classes of the regular
      expressions are given on all of them: the no-break space (code
      unit 160) is white space, and the capital letters 192 to 214 and
      216 to 222 have lower-case forms.
    - A value that went through JSON is a [json].  Its numbers are those
      with an integer value: [JNum n] is what [JSON.parse] reads from the
      digits of [n], the double nearest to [n], and [Number_toString]
      prints it as [String] does.  What a caller passes to be stored is a
      [json] as well, that is a value that [JSON.stringify] writes and
      [JSON.parse] reads back as it was.  [undefined] is [None] in
      [value := option json].
    - An entry of [localStorage] is a [text]: the stored string as
      [JSON.parse] sees it (empty, outside the JSON grammar, or the text
      of a JSON value).  The program only ever tests a stored string for
      emptiness and parses it.
    - [setItem] raises when the browser refuses the write; when it does is
      the parameter [quota_exceeded] of the writers.  The clock read by
      [register] is its parameter [now].  In the same way
      [getDaysUntilMoveOut] takes the clock and the browser's reading of a
      date, [submitHousingToFormspree] takes [fetch], and [requireAuth]
      takes the path of the page and returns the address it sends the page
      to.  The toast and the scroll animations, which only act on the
      document, are not embedded.
    - What a caller passes from a form field is a [string], or an
      [option string] where the function tests it against [undefined];
      what comes out of the storage is dynamically typed.
    - Property reads are own-property reads.  Where a run would reach a
      member inherited from a builtin prototype, or index something that
      is neither an object nor [null] with a computed key, the embedding
      answers [Unmodelled] instead of guessing. *)

From Stdlib Require Import Ascii String ZArith Lia.
From stdpp Require Import base strings gmap list pretty.

Set Warnings "-register-all".

(** ** JavaScript strings *)

Definition char_in (lo hi c : ascii) : bool :=
  ((N_of_ascii lo <=? N_of_ascii c) && (N_of_ascii c <=? N_of_ascii hi))%N.

(** [\s], and what [trim] removes: tab, line feed, vertical tab, form
    feed, carriage return, space and the no-break space. *)
Definition is_whitespace (c : ascii) : bool :=
  Ascii.is_space c || (N_of_ascii c =? 160)%N.

(** [\d] *)
Definition is_digit (c : ascii) : bool := char_in "0" "9" c.

(** The capital letters: [A] to [Z], and [À] to [Þ] (192 to 222) without
    the multiplication sign (215). *)
Definition is_capital (c : ascii) : bool :=
  char_in "A" "Z" c ||
  (char_in "192" "222" c && negb (N_of_ascii c =? 215)%N).

Definition lower_char (c : ascii) : ascii :=
  if is_capital c then ascii_of_N (N_of_ascii c + 32) else c.

Fixpoint toLowerCase (s : string) : string :=
  match s with
  | EmptyString => EmptyString
  | String c s' => String (lower_char c) (toLowerCase s')
  end.

Fixpoint trimStart (s : string) : string :=
  match s with
  | EmptyString => EmptyString
  | String c s' => if is_whitespace c then trimStart s' else s
  end.

Fixpoint trimEnd (s : string) : string :=
  match s with
  | EmptyString => EmptyString
  | String c s' =>
      match trimEnd s' with
      | EmptyString => if is_whitespace c then EmptyString else String c EmptyString
      | t => String c t
      end
  end.

Definition trim (s : string) : string := trimEnd (trimStart s).

(** [s.includes(sub)] *)
Fixpoint includes (s sub : string) : bool :=
  String.prefix sub s ||
  match s with
  | EmptyString => false
  | String _ s' => includes s' sub
  end.

(** [s.replace(/[cls]/g, by)]: every character of the class is replaced. *)
Fixpoint replace_class (cls : ascii → bool) (by_ : string) (s : string) : string :=
  match s with
  | EmptyString => EmptyString
  | String c s' =>
      (if cls c then by_ else String c EmptyString) +:+ replace_class cls by_ s'
  end.

(** [x || d] on an optional string argument: [undefined] and the empty
    string are falsy. *)
Definition str_or (x : option string) (d : string) : string :=
  match x with
  | Some s => if decide (s = "") then d else s
  | None => d
  end.

(** ** Regular expressions, matched by derivatives *)

Inductive regex : Type :=
  | Void
  | Eps
  | Class (p : ascii → bool)
  | Cat (r1 r2 : regex)
  | Alt (r1 r2 : regex)
  | Star (r : regex).

Definition Chr (c : ascii) : regex := Class (Ascii.eqb c).
Definition Plus (r : regex) : regex := Cat r (Star r).

Fixpoint nullable (r : regex) : bool :=
  match r with
  | Void => false
  | Eps => true
  | Class _ => false
  | Cat r1 r2 => nullable r1 && nullable r2
  | Alt r1 r2 => nullable r1 || nullable r2
  | Star _ => true
  end.

Fixpoint deriv (c : ascii) (r : regex) : regex :=
  match r with
  | Void => Void
  | Eps => Void
  | Class p => if p c then Eps else Void
  | Cat r1 r2 =>
      if nullable r1 then Alt (Cat (deriv c r1) r2) (deriv c r2)
      else Cat (deriv c r1) r2
  | Alt r1 r2 => Alt (deriv c r1) (deriv c r2)
  | Star r1 => Cat (deriv c r1) (Star r1)
  end.

(** [/^r$/.test(s)] *)
Fixpoint test (r : regex) (s : string) : bool :=
  match s with
  | EmptyString => nullable r
  | String c s' => test (deriv c r) s'
  end.

(** ** JSON values *)

Inductive json : Type :=
  | JNull
  | JBool (b : bool)
  | JNum (n : Z)
  | JStr (s : string)
  | JArr (l : list json)
  | JObj (m : gmap string json).

(** A JavaScript value that is either [undefined] or JSON data. *)
Abbreviation value := (option json).
Abbreviation undefined := (@None json).

Definition truthy (j : json) : bool :=
  match j with
  | JNull => false
  | JBool b => b
  | JNum n => negb (n =? 0)%Z
  | JStr s => negb (String.eqb s "")
  | JArr _ | JObj _ => true
  end.

Definition truthy_v (v : value) : bool :=
  match v with
  | Some j => truthy j
  | None => false
  end.

(** [v != null]: neither [null] nor [undefined]. *)
Definition not_nullish (v : value) : bool :=
  match v with
  | None | Some JNull => false
  | Some _ => true
  end.

(** [typeof v === 'object'] *)
Definition typeof_object (v : value) : bool :=
  match v with
  | Some JNull | Some (JArr _) | Some (JObj _) => true
  | _ => false
  end.

(** ** Numbers as strings

    The digits [n], for [n] not negative, are read as the double nearest
    to [n], ties going to the even significand; from [2^1024 - 2^970] on
    that is infinity ([None]). *)
Definition to_double (n : Z) : option Z :=
  if (n <? 2 ^ 53)%Z then Some n else
  let e := (Z.log2 n - 52)%Z in
  let q := Z.shiftr n e in
  let r := Z.land n (Z.ones e) in
  let half := (2 ^ (e - 1))%Z in
  let m := if (half <? r)%Z || ((r =? half)%Z && Z.odd q) then (q + 1)%Z else q in
  let d := Z.shiftl m e in
  if (d <? 2 ^ 1024)%Z then Some d else None.

(** The number with the fewest significant digits that is read as the
    double [x], looked for among the multiples of [10^j], then of
    [10^(j-1)], and so on: of the two multiples around [x] the one that is
    read as [x], the nearer one if both are, the one with the even digit
    if they are as near. *)
Fixpoint shortest (x : Z) (j : nat) : Z :=
  let unit := (10 ^ Z.of_nat j)%Z in
  let lo := (x / unit * unit)%Z in
  let hi := (lo + unit)%Z in
  let reads v := bool_decide (to_double v = Some x) in
  match reads lo, reads hi, j with
  | true, true, _ =>
      if (x - lo <? hi - x)%Z then lo
      else if (hi - x <? x - lo)%Z then hi
      else if Z.even (x / unit) then lo else hi
  | true, false, _ => lo
  | false, true, _ => hi
  | false, false, S j' => shortest x j'
  | false, false, O => x
  end.

Fixpoint strip_zeros (s : string) : string :=
  match s with
  | EmptyString => EmptyString
  | String c s' =>
      match strip_zeros s' with
      | EmptyString => if Ascii.eqb c "0" then EmptyString else String c EmptyString
      | t => String c t
      end
  end.

(** [String(x)] for the number [x] that the digits [n] are read as: the
    shortest digits that are read as [x], followed by zeros up to 21
    digits, in exponent form beyond. *)
Definition Number_toString (n : Z) : string :=
  let sign := if (n <? 0)%Z then "-" else "" in
  match to_double (Z.abs n) with
  | None => sign +:+ "Infinity"
  | Some x =>
      let d := pretty (shortest x (String.length (pretty x) - 1)) in
      if String.length d <=? 21 then sign +:+ d
      else
        let e := "e+" +:+ pretty (String.length d - 1) in
        match strip_zeros d with
        | EmptyString => EmptyString
        | String c EmptyString => sign +:+ String c e
        | String c t => sign +:+ String c ("." +:+ t +:+ e)
        end
  end.

(** The own enumerable properties, which an object spread [{...j}] copies:
    the members of an object, the elements of an array and the characters
    of a string under their indices, nothing for the other values. *)
Definition own_enumerable (j : json) : gmap string json :=
  match j with
  | JObj m => m
  | JArr l => list_to_map (imap (λ i x, (pretty i, x)) l)
  | JStr s =>
      list_to_map
        (imap (λ i c, (pretty i, JStr (String c EmptyString)))
              (list_ascii_of_string s))
  | _ => ∅
  end.

Definition spread (v : value) : gmap string json :=
  match v with
  | Some j => own_enumerable j
  | None => ∅
  end.

(** ** Exceptions inside a reader *)

Inductive exc (A : Type) : Type :=
  | Return (a : A)
  | Throw.
Arguments Return {A} a.
Arguments Throw {A}.

Definition exc_bind {A B} (m : exc A) (k : A → exc B) : exc B :=
  match m with
  | Return a => k a
  | Throw => Throw
  end.

Notation "'let*' x ':=' m 'in' k" := (exc_bind m (λ x, k))
  (at level 10, x name, m at level 100, k at level 200).

(** [try { body } catch { handler }] *)
Definition catch {A} (body : exc A) (handler : A) : A :=
  match body with
  | Return a => a
  | Throw => handler
  end.

(** [String(j)].  An array is joined with commas, [null] elements giving
    nothing.  An object is printed by the [toString] that it inherits; a
    member of that name, which no JSON value can make a function, hides it,
    and the conversion raises a TypeError. *)
Fixpoint ToString (j : json) : exc string :=
  match j with
  | JNull => Return "null"
  | JBool b => Return (if b then "true" else "false")
  | JNum n => Return (Number_toString n)
  | JStr s => Return s
  | JArr l =>
      (fix join (l : list json) : exc string :=
         match l with
         | [] => Return ""
         | x :: l' =>
             let* a := match x with
                       | JNull => Return ""
                       | _ => ToString x
                       end in
             match l' with
             | [] => Return a
             | _ => let* b := join l' in Return (a +:+ "," +:+ b)
             end
         end) l
  | JObj m =>
      match m !! "toString" with
      | Some _ => Throw
      | None => Return "[object Object]"
      end
  end.

(** [v.name] for a name that no builtin prototype defines: a TypeError on
    [undefined] and [null], the member of an object, [undefined] on the
    other values. *)
Definition prop (v : value) (name : string) : exc value :=
  match v with
  | None | Some JNull => Throw
  | Some (JObj m) => Return (m !! name)
  | Some _ => Return undefined
  end.

(** ** localStorage *)

Inductive text : Type :=
  | TEmpty                 (* the empty string *)
  | TGarbage               (* a string that is not the text of a JSON value *)
  | TJson (v : json).      (* JSON.stringify(v), or any text that parses to v *)

Abbreviation Storage := (gmap string text).

Definition getItem (st : Storage) (key : string) : option text := st !! key.

Definition JSON_parse (t : text) : exc json :=
  match t with
  | TJson v => Return v
  | _ => Throw
  end.

(** [raw ? JSON.parse(raw) : absent], where [raw] is what [getItem]
    returned: [null] and the empty string are falsy. *)
Definition parse_or (raw : option text) (absent : json) : exc json :=
  match raw with
  | None | Some TEmpty => Return absent
  | Some t => JSON_parse t
  end.

(** [JSON.stringify(v)] as [setItem] stores it.  [JSON.stringify(undefined)]
    is [undefined], which [setItem] turns into a string that is not JSON. *)
Definition JSON_stringify (v : value) : text :=
  match v with
  | Some j => TJson j
  | None => TGarbage
  end.

(** [JSON.stringify] of an object literal: members whose value is
    [undefined] are left out. *)
Definition JSON_stringify_object (o : gmap string value) : text :=
  TJson (JObj (omap id o)).

Definition object (fields : list (string * value)) : gmap string value :=
  list_to_map fields.

(** ** Storage keys *)

Definition STORAGE_USERS : string := "silentlease_users".
Definition STORAGE_CURRENT : string := "silentlease_current".
Definition STORAGE_QUIZ : string := "silentlease_exitPlanData".
Definition STORAGE_TASKS : string := "silentlease_tasks".
Definition STORAGE_APP_STATE : string := "silentlease_appState".

(** ** Readers *)

(** [[^a-zA-Z0-9@._-]] *)
Definition unsafe_char (c : ascii) : bool :=
  negb (char_in "a" "z" c || char_in "A" "Z" c || char_in "0" "9" c
        || Ascii.eqb c "@" || Ascii.eqb c "." || Ascii.eqb c "_"
        || Ascii.eqb c "-").

Definition sanitize (s : string) : string := replace_class unsafe_char "_" s.

Definition getStorageSuffix (st : Storage) : string :=
  catch
    (let data := getItem st STORAGE_CURRENT in
     let* user := parse_or data JNull in
     if truthy user then
       let* logged := prop (Some user) "isLoggedIn" in
       if truthy_v logged then
         let* email := prop (Some user) "email" in
         match email with
         | Some e =>
             if truthy e then
               let* s := ToString e in Return ("_" +:+ sanitize s)
             else Return ""
         | None => Return ""
         end
       else Return ""
     else Return "")
    "".

Definition getExitPlanData (st : Storage) : json :=
  catch
    (let suffix := getStorageSuffix st in
     let raw := getItem st (STORAGE_QUIZ +:+ suffix) in
     parse_or raw JNull)
    JNull.

Definition getTasks (st : Storage) : json :=
  catch
    (let suffix := getStorageSuffix st in
     let raw := getItem st (STORAGE_TASKS +:+ suffix) in
     let* obj := parse_or raw (JObj ∅) in
     Return (if typeof_object (Some obj) && not_nullish (Some obj) then obj
             else JObj ∅))
    (JObj ∅).

Definition defaultAppState : gmap string json :=
  <["isPlanGenerated" := JBool false]>
    (<["exitPlanData" := JNull]> (<["completedTasks" := JObj ∅]> ∅)).

(** [a || b] *)
Definition or_else (a : value) (b : json) : json :=
  match a with
  | Some j => if truthy j then j else b
  | None => b
  end.

Definition getAppState (st : Storage) : gmap string json :=
  catch
    (let suffix := getStorageSuffix st in
     let key := STORAGE_APP_STATE +:+ suffix in
     let raw := getItem st key in
     let* state := parse_or raw (JObj ∅) in
     let exitPlan := getExitPlanData st in
     let tasks := getTasks st in
     let* s_generated := prop (Some state) "isPlanGenerated" in
     let* s_plan := prop (Some state) "exitPlanData" in
     let* s_tasks := prop (Some state) "completedTasks" in
     Return
       (own_enumerable state ∪
        <["isPlanGenerated" := JBool (truthy_v s_generated || truthy exitPlan)]>
          (<["exitPlanData" := or_else s_plan (or_else (Some exitPlan) JNull)]>
             (<["completedTasks" := or_else s_tasks (or_else (Some tasks) (JObj ∅))]>
                ∅))))
    defaultAppState.

Definition getUsers (st : Storage) : json :=
  catch
    (let data := getItem st STORAGE_USERS in
     parse_or data (JObj ∅))
    (JObj ∅).

Definition getCurrentUser (st : Storage) : json :=
  catch
    (let data := getItem st STORAGE_CURRENT in
     let* user := parse_or data JNull in
     if truthy user then
       let* logged := prop (Some user) "isLoggedIn" in
       Return (if truthy_v logged then user else JNull)
     else Return JNull)
    JNull.

(** ** Validation *)

(** [[^\s@]] *)
Definition plain_char (c : ascii) : bool :=
  negb (is_whitespace c || Ascii.eqb c "@").

(** [/^[^\s@]+@[^\s@]+\.[^\s@]+$/] *)
Definition email_re : regex :=
  Cat (Plus (Class plain_char))
    (Cat (Chr "@")
       (Cat (Plus (Class plain_char))
          (Cat (Chr ".") (Plus (Class plain_char))))).

Definition isValidEmail (email : string) : bool := test email_re email.

Definition isValidPassword (password : string) : bool :=
  negb (String.eqb password "") && (8 <=? String.length password).

Definition isValidPhone (phone : option string) : bool :=
  match phone with
  | None => true
  | Some p =>
      if String.eqb p "" || String.eqb (trim p) "" then true
      else
        let cleaned := replace_class (λ c, negb (is_digit c)) "" p in
        (10 <=? String.length cleaned) && (String.length cleaned <=? 15)
  end.




(** ** Writers: state, exceptions, and the edge of the model *)

Inductive run (A : Type) : Type :=
  | Done (a : A) (st : Storage)      (* returned [a], storage is now [st] *)
  | Raised (st : Storage)            (* an exception left the function *)
  | Unmodelled.                      (* the run left the modelled fragment *)
Arguments Done {A} a st.
Arguments Raised {A} st.
Arguments Unmodelled {A}.

Definition js (A : Type) : Type := Storage → run A.

Definition ret {A} (a : A) : js A := λ st, Done a st.
Definition throw {A} : js A := λ st, Raised st.
Definition unmodelled {A} : js A := λ _, Unmodelled.

Definition bind {A B} (m : js A) (k : A → js B) : js B :=
  λ st,
    match m st with
    | Done a st' => k a st'
    | Raised st' => Raised st'
    | Unmodelled => Unmodelled
    end.

Notation "'do' x '<-' m ';' k" := (bind m (λ x, k))
  (at level 10, x name, m at level 100, k at level 200).
Notation "'exec' m ';' k" := (bind m (λ _, k))
  (at level 10, m at level 100, k at level 200).

Definition read {A} (f : Storage → A) : js A := λ st, Done (f st) st.

Definition lift {A} (e : exc A) : js A :=
  match e with
  | Return a => ret a
  | Throw => throw
  end.

(** [try { body } catch { handler }]: what [body] wrote before it raised
    stays written. *)
Definition try_catch {A} (body handler : js A) : js A :=
  λ st,
    match body st with
    | Raised st' => handler st'
    | r => r
    end.

Definition removeItem (key : string) : js unit :=
  λ st, Done tt (delete key st).

(** The names a plain object inherits from [Object.prototype]. *)
Definition Object_prototype : list string :=
  [ "constructor"; "__proto__"; "hasOwnProperty"; "isPrototypeOf";
    "propertyIsEnumerable"; "toLocaleString"; "toString"; "valueOf";
    "__defineGetter__"; "__defineSetter__"; "__lookupGetter__";
    "__lookupSetter__" ].

(** [o[key]] with a computed key. *)
Definition index (o : json) (key : string) : js value :=
  match o with
  | JNull => throw
  | JObj m =>
      match m !! key with
      | Some v => ret (Some v)
      | None =>
          if bool_decide (key ∈ Object_prototype) then unmodelled
          else ret undefined
      end
  | _ => unmodelled
  end.

(** [o[key] = v] with a computed key; the updated [o]. *)
Definition assign (o : json) (key : string) (v : json) : js json :=
  match o with
  | JNull => throw
  | JObj m =>
      if bool_decide (key = "__proto__") then unmodelled
      else ret (JObj (<[key := v]> m))
  | _ => unmodelled
  end.

(** [delete o[key]]; the updated [o]. *)
Definition delete_member (o : json) (key : string) : js json :=
  match o with
  | JNull => throw
  | JObj m => ret (JObj (delete key m))
  | _ => unmodelled
  end.

(** [u.name = v] for one of the fixed names of a record; the updated [u].
    Outside strict mode the assignment to a member of a number, a string
    or a boolean does nothing. *)
Definition set_member (u : value) (name : string) (v : json) : js value :=
  match u with
  | None | Some JNull => throw
  | Some (JObj m) => ret (Some (JObj (<[name := v]> m)))
  | Some (JArr _) => unmodelled
  | Some _ => ret u
  end.

(** A string method called on [v]: a TypeError unless [v] is a string. *)
Definition as_string (v : value) : exc string :=
  match v with
  | Some (JStr s) => Return s
  | _ => Throw
  end.

(** [v !== s] for a string [s], negated. *)
Definition is_string (v : value) (s : string) : bool :=
  match v with
  | Some (JStr t) => String.eqb t s
  | _ => false
  end.

Inductive Result : Type :=
  | success
  | failure (error : string).

Record ProfileUpdates : Type := {
  u_email : option string;
  u_name : option string;
  u_phone : option string;
  u_address : option string;
  u_occupation : option string;
  u_password : option string
}.

(** The record that [register] files under [key]. *)
Definition userRecord (key password : string)
    (name phone address occupation : option string) (now : string) : json :=
  JObj (list_to_map
    [ ("email", JStr key);
      ("password", JStr password);
      ("name", JStr (str_or (Some (trim (str_or name "User"))) "User"));
      ("phone", JStr (trim (str_or phone "")));
      ("address", JStr (trim (str_or address "")));
      ("occupation", JStr (trim (str_or occupation "")));
      ("registeredAt", JStr now) ]).

Section Writers.

(** When the browser refuses a write ([setItem] raises
    QuotaExceededError), given the present contents. *)
Variable quota_exceeded : Storage → string → text → bool.

Definition setItem (key : string) (t : text) : js unit :=
  λ st,
    if quota_exceeded st key t then Raised st
    else Done tt (<[key := t]> st).

Definition saveAppState (updates : gmap string value) : js bool :=
  try_catch
    (do suffix <- read getStorageSuffix;
     do current <- read getAppState;
     let next : gmap string value := updates ∪ (Some <$> current) in
     let next_exitPlanData : value := next !! "exitPlanData" ≫= id in
     let next_completedTasks : value := next !! "completedTasks" ≫= id in
     let next_isPlanGenerated : value := next !! "isPlanGenerated" ≫= id in
     exec (if not_nullish next_exitPlanData then
             setItem (STORAGE_QUIZ +:+ suffix) (JSON_stringify next_exitPlanData)
           else ret tt);
     exec (if not_nullish next_completedTasks && typeof_object next_completedTasks then
             setItem (STORAGE_TASKS +:+ suffix) (JSON_stringify next_completedTasks)
           else ret tt);
     exec setItem (STORAGE_APP_STATE +:+ suffix)
            (JSON_stringify_object
               (object [ ("isPlanGenerated", next_isPlanGenerated);
                         ("exitPlanData", next_exitPlanData);
                         ("completedTasks", next_completedTasks) ]));
     ret true)
    (ret false).

Definition saveTasks (tasksObj : value) : js bool :=
  try_catch
    (do suffix <- read getStorageSuffix;
     exec setItem (STORAGE_TASKS +:+ suffix) (JSON_stringify tasksObj);
     ret true)
    (ret false).

Definition saveUsers (users : json) : js unit :=
  setItem STORAGE_USERS (JSON_stringify (Some users)).

(** [now] is [new Date().toISOString()]. *)
Definition register (now : string) (email password : string)
    (name phone address occupation : option string) : js Result :=
  do users <- read getUsers;
  let key := trim (toLowerCase email) in
  do existing <- index users key;
  if truthy_v existing then
    ret (failure "An account with this email already exists.")
  else if negb (isValidEmail email) then
    ret (failure "Please enter a valid email address.")
  else if negb (isValidPassword password) then
    ret (failure "Password must be at least 8 characters.")
  else if negb (isValidPhone phone) then
    ret (failure "Please enter a valid phone number (10–15 digits).")
  else
    do users <- assign users key
                  (userRecord key password name phone address occupation now);
    exec saveUsers users;
    do userData <- index users key;
    do d_name <- lift (prop userData "name");
    do d_phone <- lift (prop userData "phone");
    do d_address <- lift (prop userData "address");
    do d_occupation <- lift (prop userData "occupation");
    exec setItem STORAGE_CURRENT
           (JSON_stringify_object
              (object [ ("email", Some (JStr key));
                        ("name", d_name);
                        ("phone", d_phone);
                        ("address", d_address);
                        ("occupation", d_occupation);
                        ("isLoggedIn", Some (JBool true)) ]));
    ret success.

Definition login (email password : string) : js Result :=
  do users <- read getUsers;
  let key := trim (toLowerCase email) in
  do u <- index users key;
  if negb (truthy_v u) then
    ret (failure "No account found with this email address.")
  else
    do u_pw <- lift (prop u "password");
    if negb (is_string u_pw password) then
      ret (failure "The password you entered is incorrect.")
    else
      do d_name <- lift (prop u "name");
      do d_phone <- lift (prop u "phone");
      do d_address <- lift (prop u "address");
      do d_occupation <- lift (prop u "occupation");
      exec setItem STORAGE_CURRENT
             (JSON_stringify_object
                (object [ ("email", Some (JStr key));
                          ("name", d_name);
                          ("phone", Some (or_else d_phone (JStr "")));
                          ("address", Some (or_else d_address (JStr "")));
                          ("occupation", Some (or_else d_occupation (JStr "")));
                          ("isLoggedIn", Some (JBool true)) ]));
      ret success.

(** [if (field !== undefined) user.name = f(field)] *)
Definition set_if_given (field : option string) (name : string)
    (f : string → string) (user : value) : js value :=
  match field with
  | Some x => set_member user name (JStr (f x))
  | None => ret user
  end.

(** The part of [updateUserProfile] after the change of key: [user] is
    the member [users[newEmail]] itself, so what is assigned to its
    fields is in [users] when [saveUsers] runs. *)
Definition applyProfile (updates : ProfileUpdates) (newEmail : string)
    (users : json) : js Result :=
  do user <- index users newEmail;
  do user <- set_if_given (u_name updates) "name"
               (λ x, str_or (Some (trim (str_or (Some x) ""))) "User") user;
  if negb (isValidPhone (u_phone updates)) then
    ret (failure "Please enter a valid phone number.")
  else
    do user <- set_if_given (u_phone updates) "phone"
                 (λ x, trim (str_or (Some x) "")) user;
    do user <- set_if_given (u_address updates) "address"
                 (λ x, trim (str_or (Some x) "")) user;
    do user <- set_if_given (u_occupation updates) "occupation"
                 (λ x, trim (str_or (Some x) "")) user;
    do user <- (match u_password updates with
                | Some p =>
                    if negb (String.eqb p "") && (8 <=? String.length p)
                    then set_member user "password" (JStr p)
                    else ret user
                | None => ret user
                end);
    do user <- set_member user "email" (JStr newEmail);
    let users :=
      match users, user with
      | JObj m, Some u => JObj (<[newEmail := u]> m)
      | _, _ => users
      end in
    exec saveUsers users;
    do d_name <- lift (prop user "name");
    do d_phone <- lift (prop user "phone");
    do d_address <- lift (prop user "address");
    do d_occupation <- lift (prop user "occupation");
    exec setItem STORAGE_CURRENT
           (JSON_stringify_object
              (object [ ("email", Some (JStr newEmail));
                        ("name", d_name);
                        ("phone", Some (or_else d_phone (JStr "")));
                        ("address", Some (or_else d_address (JStr "")));
                        ("occupation", Some (or_else d_occupation (JStr "")));
                        ("isLoggedIn", Some (JBool true)) ]));
    ret success.

Definition updateUserProfile (updates : ProfileUpdates) : js Result :=
  do current <- read getCurrentUser;
  if negb (truthy current) then ret (failure "Not logged in.")
  else
    do users <- read getUsers;
    do c_email <- lift (prop (Some current) "email");
    do c_email <- lift (as_string c_email);
    let currentKey := trim (toLowerCase c_email) in
    let newEmail := trim (toLowerCase (str_or (u_email updates) c_email)) in
    if negb (String.eqb newEmail currentKey) then
      if negb (isValidEmail newEmail) then
        ret (failure "Please enter a valid email address.")
      else
        do taken <- index users newEmail;
        if truthy_v taken then
          ret (failure "This email is already taken by another account.")
        else
          do old <- index users currentKey;
          do users <- assign users newEmail (JObj (spread old));
          do users <- delete_member users currentKey;
          applyProfile updates newEmail users
    else applyProfile updates newEmail users.

Definition logout : js unit := removeItem STORAGE_CURRENT.

End Writers.

(** ** Local tenant tip *)

Record Tip : Type := { title : string; body : string }.

Definition getLocalTenantTip (occupation cityProvince : option string)
    : option Tip :=
  let city := toLowerCase (str_or cityProvince "") in
  let occ := toLowerCase (str_or occupation "") in
  let tips : list Tip :=
    if String.eqb occ "student" then
      if includes city "ottawa" then
        [ {| title := "Tip for students in Ottawa";
             body := "In Ontario, students can assign their lease (sublet) with landlord consent. uOttawa and Carleton offer off-campus housing resources — check your student union for free legal clinics before sending notice." |} ]
      else if includes city "toronto" || includes city "ontario" then
        [ {| title := "Tip for students in Ontario";
             body := "Ontario allows lease assignment. If your landlord unreasonably refuses an assignee, you can give 30 days' notice to end the tenancy. Keep all refusals in writing." |} ]
      else if includes city "montreal" || includes city "quebec" then
        [ {| title := "Tip for students in Quebec";
             body := "In Quebec, fixed-term leases often end automatically — check your lease. For month-to-month, you must give 1–2 months' notice. The Régie du logement has guides in English." |} ]
      else
        [ {| title := "Tip for students";
             body := "Many provinces have special rules for students (e.g. sublets, lease assignment). Check your provincial tenancy board and your school's off-campus housing office for local guidance." |} ]
    else if includes city "ottawa" then
      [ {| title := "Tip for tenants in Ottawa";
           body := "Ontario requires 60 days' notice for most terminations. Use our notice letter template and keep proof of delivery (email read receipt or registered mail)." |} ]
    else if includes city "ontario" then
      [ {| title := "Tip for Ontario tenants";
           body := "Landlords cannot charge fees for sublets or assignments. If they refuse a reasonable assignee, you may be able to end your tenancy with 30 days' notice." |} ]
    else [] in
  match tips with
  | t :: _ => Some t
  | [] => None
  end.

(** ** Days until the move-out *)

(** A JavaScript number that is an integer, or [NaN]. *)
Inductive number : Type :=
  | NaN
  | Num (n : Z).

Definition MS_PER_DAY : Z := 1000 * 60 * 60 * 24.

(** [Math.ceil(x / d)] for integers [x] and [d > 0]. *)
Definition ceil_div (x d : Z) : Z := - ((- x) / d).

Section Clock.

(** The time value of [new Date(v)] in milliseconds, [None] for an
    invalid date; how a string is read as a date is the browser's. *)
Variable Date_value : json → option Z.

(** The time value of [new Date()]. *)
Variable now : Z.

(** Time values are integers.  Their difference and its quotient by the
    milliseconds of a day are computed on doubles; below [2^53] the
    difference is exact and the quotient rounds to no other integer than
    the exact one, so that [Math.ceil] is [ceil_div].  A zero result may be
    the negative zero. *)
Definition getDaysUntilMoveOut : js (option number) :=
  do data <- read getExitPlanData;
  if negb (truthy data) then ret None
  else
    do date <- lift (prop (Some data) "moveOutDate");
    match date with
    | None => ret None
    | Some d =>
        if negb (truthy d) then ret None
        else
          match Date_value d with
          | None => ret (Some NaN)
          | Some moveOut =>
              let diff := (moveOut - now)%Z in
              if (Z.abs diff <? 2 ^ 53)%Z
              then ret (Some (Num (ceil_div diff MS_PER_DAY)))
              else unmodelled
          end
    end.

End Clock.

(** ** The housing form *)

Record Request : Type := {
  req_url : string;
  req_method : string;
  req_headers : list (string * string);
  req_body : text
}.

Record Response : Type := { ok : bool }.

(** How a promise ends. *)
Inductive Promise (A : Type) : Type :=
  | Fulfilled (a : A)
  | Rejected
  | Pending.
Arguments Fulfilled {A} a.
Arguments Rejected {A}.
Arguments Pending {A}.

(** [p.then(f)] for an [f] that returns a plain value. *)
Definition then_ {A B} (p : Promise A) (f : A → B) : Promise B :=
  match p with
  | Fulfilled a => Fulfilled (f a)
  | Rejected => Rejected
  | Pending => Pending
  end.

Definition FORMSPREE_URL : string := "https://formspree.io/f/mlgwrazj".

Section Network.

Variable fetch : Request → Promise Response.

Definition submitHousingToFormspree (housingData : value)
    : exc (Promise bool) :=
  let* email := prop housingData "email" in
  let* location := prop housingData "location" in
  let* move_out_date := prop housingData "move_out_date" in
  let* landlord_status := prop housingData "landlord_status" in
  let body :=
    object [ ("email", Some (or_else email (JStr "")));
             ("location", Some (or_else location (JStr "")));
             ("move_out_date", Some (or_else move_out_date (JStr "")));
             ("landlord_status", Some (or_else landlord_status (JStr ""))) ] in
  Return
    (then_
       (fetch {| req_url := FORMSPREE_URL;
                 req_method := "POST";
                 req_headers := [ ("Content-Type", "application/json") ];
                 req_body := JSON_stringify_object body |})
       ok).

End Network.

(** ** The guard of the pages *)

Definition hex_digit (n : N) : ascii :=
  if (n <? 10)%N then ascii_of_N (48 + n) else ascii_of_N (55 + n).

(** [%XX] for the byte [n]. *)
Definition percent (n : N) : string :=
  String "%" (String (hex_digit (n / 16)) (String (hex_digit (n mod 16)) "")).

(** The characters that [encodeURIComponent] leaves as they are. *)
Definition uri_unreserved (c : ascii) : bool :=
  char_in "a" "z" c || char_in "A" "Z" c || char_in "0" "9" c
  || Ascii.eqb c "-" || Ascii.eqb c "_" || Ascii.eqb c "." || Ascii.eqb c "!"
  || Ascii.eqb c "~" || Ascii.eqb c "*" || Ascii.eqb c "'" || Ascii.eqb c "("
  || Ascii.eqb c ")".

(** The other code units go out as the bytes of their UTF-8 form: one
    byte below 128, two for the code units from 128 to 255. *)
Fixpoint encodeURIComponent (s : string) : string :=
  match s with
  | EmptyString => EmptyString
  | String c s' =>
      (if uri_unreserved c then String c EmptyString
       else
         let n := N_of_ascii c in
         if (n <? 128)%N then percent n
         else percent (192 + n / 64) +:+ percent (128 + n mod 64))
      +:+ encodeURIComponent s'
  end.

(** [pathname] is [window.location.pathname]; beside the result, the
    address that [window.location.href] is set to, if it is. *)
Definition requireAuth (pathname : string) (st : Storage)
    : json * option string :=
  let user := getCurrentUser st in
  if negb (truthy user) then
    (JNull,
     Some ("login.html?redirect="
           +:+ encodeURIComponent (str_or (Some pathname) "dashboard.html")))
  else (user, None).

(** * The vocabulary of the statements *)

(** ** Strings and regular expressions *)

(** Every character of [s] is white space. *)
Fixpoint all_whitespace (s : string) : bool :=
  match s with
  | EmptyString => true
  | String c s' => is_whitespace c && all_whitespace s'
  end.

(** Every character of [s] satisfies [q]. *)
Fixpoint string_forall (q : ascii → bool) (s : string) : bool :=
  match s with
  | EmptyString => true
  | String c s' => q c && string_forall q s'
  end.

(** Some character of [s] satisfies [q]. *)
Fixpoint string_exists (q : ascii → bool) (s : string) : bool :=
  match s with
  | EmptyString => false
  | String c s' => q c || string_exists q s'
  end.

(** [c] occurs in [s]. *)
Fixpoint occurs (c : ascii) (s : string) : bool :=
  match s with
  | EmptyString => false
  | String x s' => Ascii.eqb c x || occurs c s'
  end.

(** [s] with [f] applied to each character. *)
Fixpoint map_chars (f : ascii → ascii) (s : string) : string :=
  match s with
  | EmptyString => EmptyString
  | String c s' => String (f c) (map_chars f s')
  end.

(** Every character class of [r] satisfies [P]. *)
Fixpoint classes (P : (ascii → bool) → Prop) (r : regex) : Prop :=
  match r with
  | Void | Eps => True
  | Class p => P p
  | Cat r1 r2 | Alt r1 r2 => classes P r1 ∧ classes P r2
  | Star r1 => classes P r1
  end.

(** [r] matches nothing, by its shape. *)
Fixpoint dead (r : regex) : bool :=
  match r with
  | Void => true
  | Eps | Class _ | Star _ => false
  | Cat r1 r2 => dead r1 || dead r2
  | Alt r1 r2 => dead r1 && dead r2
  end.

(** Every string that [r] matches contains [c], by its shape. *)
Fixpoint requires (c : ascii) (r : regex) : Prop :=
  match r with
  | Void => True
  | Eps | Star _ => False
  | Class p => ∀ x, p x = true → x = c
  | Cat r1 r2 => requires c r1 ∨ requires c r2
  | Alt r1 r2 => requires c r1 ∧ requires c r2
  end.

(** The strings a regular expression denotes. *)
Inductive matches : regex → string → Prop :=
  | matches_eps : matches Eps ""
  | matches_class p c : p c = true → matches (Class p) (String c "")
  | matches_cat r1 r2 s1 s2 :
      matches r1 s1 → matches r2 s2 → matches (Cat r1 r2) (s1 +:+ s2)
  | matches_alt_l r1 r2 s : matches r1 s → matches (Alt r1 r2) s
  | matches_alt_r r1 r2 s : matches r2 s → matches (Alt r1 r2) s
  | matches_star_nil r : matches (Star r) ""
  | matches_star_cons r s1 s2 :
      matches r s1 → matches (Star r) s2 → matches (Star r) (s1 +:+ s2).

(** ** The application state *)

(** The keys of the per-user state under a suffix. *)
Definition state_keys (suffix : string) : list string :=
  [ STORAGE_QUIZ +:+ suffix; STORAGE_TASKS +:+ suffix;
    STORAGE_APP_STATE +:+ suffix ].

(** [st] and [st'] hold the same session and the same per-user entries for
    that session. *)
Definition same_view (st st' : Storage) : Prop :=
  st !! STORAGE_CURRENT = st' !! STORAGE_CURRENT ∧
  ∀ k, k ∈ state_keys (getStorageSuffix st) → st !! k = st' !! k.

(** The members of an [AppState]. *)
Definition state_fields : list string :=
  [ "isPlanGenerated"; "exitPlanData"; "completedTasks" ].

(** [o.name] on an object built in memory. *)
Definition member (o : gmap string value) (name : string) : value :=
  o !! name ≫= id.

(** [{ ...current, ...updates }] *)
Definition merged (updates : gmap string value) (st : Storage)
    : gmap string value :=
  updates ∪ (Some <$> getAppState st).

(** The combined record that [saveAppState] stores for [next]. *)
Definition combined_record (next : gmap string value) : text :=
  JSON_stringify_object
    (object [ ("isPlanGenerated", member next "isPlanGenerated");
              ("exitPlanData", member next "exitPlanData");
              ("completedTasks", member next "completedTasks") ]).

(** The writes that [saveAppState] attempts, in order. *)
Definition planned_writes (updates : gmap string value) (st : Storage)
    : list (string * text) :=
  let suffix := getStorageSuffix st in
  let next := merged updates st in
  (if not_nullish (member next "exitPlanData")
   then [ (STORAGE_QUIZ +:+ suffix, JSON_stringify (member next "exitPlanData")) ]
   else []) ++
  (if not_nullish (member next "completedTasks")
      && typeof_object (member next "completedTasks")
   then [ (STORAGE_TASKS +:+ suffix, JSON_stringify (member next "completedTasks")) ]
   else []) ++
  [ (STORAGE_APP_STATE +:+ suffix, combined_record next) ].

(** Writes in order, until the browser refuses one. *)
Fixpoint store_all (quota_exceeded : Storage → string → text → bool)
    (ws : list (string * text)) (st : Storage) : bool * Storage :=
  match ws with
  | [] => (true, st)
  | (k, t) :: ws' =>
      if quota_exceeded st k t then (false, st)
      else store_all quota_exceeded ws' (<[k := t]> st)
  end.

(** The browser refuses one of the writes [ws], the earlier ones done. *)
Definition refused (quota_exceeded : Storage → string → text → bool)
    (ws : list (string * text)) (st : Storage) : Prop :=
  ∃ pre k t post,
    ws = pre ++ (k, t) :: post ∧
    (store_all quota_exceeded pre st).1 = true ∧
    quota_exceeded (store_all quota_exceeded pre st).2 k t = true.

(** ** The user directory *)

(** The digits of a phone number, counted. *)
Definition digits (phone : string) : nat :=
  String.length (replace_class (λ c, negb (is_digit c)) "" phone).

(** The session object that [register] stores for a fresh record. *)
Definition registeredSession (key : string)
    (name phone address occupation : option string) : gmap string json :=
  list_to_map
    [ ("email", JStr key);
      ("name", JStr (str_or (Some (trim (str_or name "User"))) "User"));
      ("phone", JStr (trim (str_or phone "")));
      ("address", JStr (trim (str_or address "")));
      ("occupation", JStr (trim (str_or occupation "")));
      ("isLoggedIn", JBool true) ].

(** [e2] is [e1] up to the case of its letters and white space around it. *)
Definition same_up_to_case_and_padding (e1 e2 : string) : Prop :=
  ∃ l c r,
    e2 = l +:+ c +:+ r ∧
    all_whitespace l = true ∧ all_whitespace r = true ∧
    toLowerCase c = toLowerCase e1.

(** The directory holds a record for [email]. *)
Definition registered (st : Storage) (email : string) : Prop :=
  ∃ users record,
    getUsers st = JObj users ∧
    users !! trim (toLowerCase email) = Some record ∧
    truthy record = true.

(** Every key of the directory passes the pattern check. *)
Definition keys_valid (users : gmap string json) : Prop :=
  map_Forall (λ k _, isValidEmail k = true) users.

(** The directory entry is readable as an object whose keys are valid. *)
Definition directory_ok (st : Storage) : Prop :=
  ∃ users, getUsers st = JObj users ∧ keys_valid users.

(** [if (field !== undefined) record.name = f(field)], on the members of
    the record. *)
Definition set_field (field : option string) (name : string)
    (f : string → string) (r : gmap string json) : gmap string json :=
  match field with
  | Some x => <[name := JStr (f x)]> r
  | None => r
  end.

(** The members of a record after [updateUserProfile] went through the
    fields of an update. *)
Definition updatedRecord (updates : ProfileUpdates) (newEmail : string)
    (r : gmap string json) : gmap string json :=
  let r := set_field (u_name updates) "name"
             (λ x, str_or (Some (trim (str_or (Some x) ""))) "User") r in
  let r := set_field (u_phone updates) "phone"
             (λ x, trim (str_or (Some x) "")) r in
  let r := set_field (u_address updates) "address"
             (λ x, trim (str_or (Some x) "")) r in
  let r := set_field (u_occupation updates) "occupation"
             (λ x, trim (str_or (Some x) "")) r in
  let r := match u_password updates with
           | Some p =>
               if negb (String.eqb p "") && (8 <=? String.length p)
               then <["password" := JStr p]> r
               else r
           | None => r
           end in
  <["email" := JStr newEmail]> r.

(** The password of a record, if it has one, is a string of eight
    characters or more. *)
Definition password_ok (r : gmap string json) : Prop :=
  ∀ pw, r !! "password" = Some pw → ∃ p, pw = JStr p ∧ 8 ≤ String.length p.

(** Every entry of [users] is a record under a key that passes the
    pattern check, its password is [password_ok], and, the key [x] apart,
    the address it carries is its key. *)
Definition filed_but (x : option string) (users : gmap string json) : Prop :=
  map_Forall
    (λ k v, isValidEmail k = true ∧
            ∃ r, v = JObj r ∧ password_ok r ∧
                 (x ≠ Some k → r !! "email" = Some (JStr k)))
    users.

(** The directory is readable and every entry is filed as it should. *)
Definition accounts_ok (st : Storage) : Prop :=
  ∃ users, getUsers st = JObj users ∧ filed_but None users.

(** The session entry that the writers store. *)
Definition sessionText (key : string) (name phone address occupation : value)
    : text :=
  JSON_stringify_object
    (object [ ("email", Some (JStr key));
              ("name", name);
              ("phone", phone);
              ("address", address);
              ("occupation", occupation);
              ("isLoggedIn", Some (JBool true)) ]).

(** Nobody is logged in, or the session carries a valid address. *)
Definition session_ok (st : Storage) : Prop :=
  getCurrentUser st = JNull ∨
  ∃ session e,
    getCurrentUser st = JObj session ∧
    session !! "email" = Some (JStr e) ∧
    isValidEmail e = true.

(** ** The dashboard, the housing form and the guard *)

(** The member [name] of [v], if [v] is an object that has one. *)
Definition field_of (v : value) (name : string) : value :=
  match v with
  | Some (JObj m) => m !! name
  | _ => None
  end.

(** The move-out date of the stored plan. *)
Definition moveOutDate (st : Storage) : value :=
  field_of (Some (getExitPlanData st)) "moveOutDate".

(** The fields that the housing form sends. *)
Definition housing_fields : list string :=
  [ "email"; "location"; "move_out_date"; "landlord_status" ].

(** What [encodeURIComponent] puts out. *)
Definition uri_safe (c : ascii) : bool := uri_unreserved c || Ascii.eqb c "%".

(** ** Runs *)

(** The storage a run ends with. *)
Definition storage_after {A} (r : run A) : Storage :=
  match r with
  | Done _ st | Raised st => st
  | Unmodelled => ∅
  end.

(** The run [r] ended, normally or by an exception, with storage [st']. *)
Definition ends {A} (r : run A) (st' : Storage) : Prop :=
  (∃ a, r = Done a st') ∨ r = Raised st'.

(** A step that reads or computes, and writes nothing. *)
Definition stateless {A} (m : js A) : Prop :=
  ∀ st, m st = Unmodelled ∨ m st = Raised st ∨ ∃ a, m st = Done a st.

(** The run [r] returned an error only with the storage still [st]. *)
Definition fails_cleanly (st : Storage) (r : run Result) : Prop :=
  ∀ e st', r = Done (failure e) st' → st' = st.

(** The run [r] returned no error. *)
Definition no_failure (r : run Result) : Prop :=
  ∀ e st', r ≠ Done (failure e) st'.

(** [u'] is a value only if [u] was one. *)
Definition derived_from (u u' : value) : Prop := is_Some u' → is_Some u.

(** The storages that calls of the writers produce from a fresh browser. *)
Inductive reachable (quota_exceeded : Storage → string → text → bool)
    : Storage → Prop :=
  | reach_fresh : reachable quota_exceeded ∅
  | reach_register st st' now email password name phone address occupation :
      reachable quota_exceeded st →
      ends (register quota_exceeded now email password name phone address
              occupation st) st' →
      reachable quota_exceeded st'
  | reach_login st st' email password :
      reachable quota_exceeded st →
      ends (login quota_exceeded email password st) st' →
      reachable quota_exceeded st'
  | reach_update st st' updates :
      reachable quota_exceeded st →
      ends (updateUserProfile quota_exceeded updates st) st' →
      reachable quota_exceeded st'
  | reach_logout st st' :
      reachable quota_exceeded st →
      ends (logout st) st' →
      reachable quota_exceeded st'
  | reach_save st st' updates :
      reachable quota_exceeded st →
      ends (saveAppState quota_exceeded updates st) st' →
      reachable quota_exceeded st'
  | reach_tasks st st' tasksObj :
      reachable quota_exceeded st →
      ends (saveTasks quota_exceeded tasksObj st) st' →
      reachable quota_exceeded st'.

(** Two keys that differ within their base names. *)
Ltac key_ne :=
  unfold STORAGE_USERS, STORAGE_CURRENT, STORAGE_QUIZ, STORAGE_TASKS,
    STORAGE_APP_STATE;
  cbv [String.append]; intros [=].

(** One step of a run: unfold the monad and reduce what is decided. *)
Ltac js_run :=
  unfold bind, read, ret, lift, throw, unmodelled;
  cbv beta iota delta [truthy_v negb].

(** The run of [updateUserProfile] to the point where the new key is
    looked up. *)
Ltac run_to_new_key Hcurrent Husers Hemail Hne :=
  unfold updateUserProfile; js_run; rewrite Hcurrent;
  cbn [truthy]; js_run; rewrite Husers; unfold prop; rewrite Hemail;
  js_run; unfold as_string; js_run;
  apply String.eqb_neq in Hne; rewrite Hne; js_run.

(** ** The local tenant tip *)

(** The tip for a student in Ottawa. *)
Definition ottawa_student_tip : Tip :=
  {| title := "Tip for students in Ottawa";
     body := "In Ontario, students can assign their lease (sublet) with landlord consent. uOttawa and Carleton offer off-campus housing resources — check your student union for free legal clinics before sending notice." |}.

(** The occupation is the one the function knows. *)
Definition recognized_occupation (occupation : option string) : bool :=
  String.eqb (toLowerCase (str_or occupation "")) "student".

(** The city or province is one the function knows, for some occupation. *)
Definition recognized_city (cityProvince : option string) : bool :=
  let city := toLowerCase (str_or cityProvince "") in
  includes city "ottawa" || includes city "toronto" || includes city "ontario"
  || includes city "montreal" || includes city "quebec".

(** ** Instances *)

(** A browser with room, and one without any. *)
Definition accept_all : Storage → string → text → bool := λ _ _ _, false.
Definition refuse_all : Storage → string → text → bool := λ _ _ _, true.


(** A browser that reads the date of [sample_plan] as midnight, UTC, and
    the second of November 2026, nine o'clock, on its clock. *)
Definition sample_Date_value (v : json) : option Z :=
  match v with
  | JStr s => if String.eqb s "2026-12-01" then Some 1796083200000%Z else None
  | _ => None
  end.
Definition sample_now : Z := 1793610000000.

(** The answers of a quiz. *)
Definition sample_plan : json :=
  JObj {[ "moveOutDate" := JStr "2026-12-01" ]}.

(** A stored session that carries the logged-in flag and an empty e-mail. *)
Definition session_with_empty_email : Storage :=
  {[ STORAGE_CURRENT :=
       TJson (JObj {[ "email" := JStr ""; "isLoggedIn" := JBool true ]}) ]}.

(** What [saveAppState({exitPlanData: sample_plan})] leaves in an empty
    storage. *)
Definition after_first_plan : Storage :=
  {[ STORAGE_QUIZ := TJson sample_plan;
     STORAGE_TASKS := TJson (JObj ∅);
     STORAGE_APP_STATE :=
       TJson (JObj {[ "isPlanGenerated" := JBool false;
                      "exitPlanData" := sample_plan;
                      "completedTasks" := JObj ∅ ]}) ]}.

(** The storage after [ana@example.com] registered on a fresh browser and
    then saved a plan. *)
Definition ana_registered : Storage :=
  {[ STORAGE_USERS :=
       TJson (JObj {[ "ana@example.com" :=
         JObj {[ "email" := JStr "ana@example.com";
                 "password" := JStr "correct horse";
                 "name" := JStr "Ana";
                 "phone" := JStr "";
                 "address" := JStr "";
                 "occupation" := JStr "student";
                 "registeredAt" := JStr "2026-11-02T09:00:00.000Z" ]} ]});
     STORAGE_CURRENT :=
       TJson (JObj {[ "email" := JStr "ana@example.com";
                      "name" := JStr "Ana";
                      "phone" := JStr "";
                      "address" := JStr "";
                      "occupation" := JStr "student";
                      "isLoggedIn" := JBool true ]}) ]}.

(** The same storage after Ana saved [sample_plan]. *)
Definition ana_saved_plan : Storage :=
  <[ STORAGE_QUIZ +:+ "_ana@example.com" := TJson sample_plan ]>
  (<[ STORAGE_TASKS +:+ "_ana@example.com" := TJson (JObj ∅) ]>
  (<[ STORAGE_APP_STATE +:+ "_ana@example.com" :=
        TJson (JObj {[ "isPlanGenerated" := JBool false;
                       "exitPlanData" := sample_plan;
                       "completedTasks" := JObj ∅ ]}) ]>
   ana_registered)).

(** Two addresses that pass the pattern check and that the suffix does not
    tell apart. *)
Definition dana_plus : string := "dana+home@example.com".
Definition dana_underscore : string := "dana_home@example.com".

(** The storages of the run in which the two register and the first
    saves a plan. *)
Definition dana_plus_registered : Storage :=
  storage_after
    (register accept_all "2026-11-02T09:00:00.000Z" dana_plus "first password"
       (Some "Dana") None None None ∅).

Definition dana_plus_saved : Storage :=
  storage_after
    (saveAppState accept_all {[ "exitPlanData" := Some sample_plan ]}
       dana_plus_registered).

Definition dana_underscore_registered : Storage :=
  storage_after
    (register accept_all "2026-11-03T09:00:00.000Z" dana_underscore
       "other password" (Some "Dan") None None None dana_plus_saved).

(** Ana and Ben are registered; Ana is logged in. *)
Definition ana_and_ben : Storage :=
  {[ STORAGE_USERS :=
       TJson (JObj {[ "ana@example.com" :=
                        userRecord "ana@example.com" "correct horse"
                          (Some "Ana") None None None "2026-11-02T09:00:00.000Z";
                      "ben@example.com" :=
                        userRecord "ben@example.com" "battery staple"
                          (Some "Ben") None None None "2026-11-02T10:00:00.000Z" ]});
     STORAGE_CURRENT :=
       TJson (JObj (registeredSession "ana@example.com" (Some "Ana") None None
                      None)) ]}.

(** Addresses with code units beyond ASCII: [émile@example.com] (233 is
    [é]), the same in capitals (201 is [É]) after a no-break space (160)
    and before a space, and one with a no-break space inside. *)
Definition emile : string := String "233" "mile@example.com".
Definition emile_typed : string :=
  String "160" (String "201" "MILE@EXAMPLE.COM ").
Definition emile_capital : string := String "201" "MILE@example.com".
Definition no_break_inside : string := String "a" (String "160" "b@c.d").

(** Émile registered on a fresh browser; then Ana did, and is logged in. *)
Definition emile_registered : Storage :=
  storage_after
    (register accept_all "2026-11-02T09:00:00.000Z" emile "correct horse"
       (Some "Emile") None None None ∅).

Definition emile_and_ana : Storage :=
  storage_after
    (register accept_all "2026-11-02T10:00:00.000Z" "ana@example.com"
       "battery staple" (Some "Ana") None None None emile_registered).

Definition rename_to_emile : ProfileUpdates :=
  {| u_email := Some emile_capital; u_name := None; u_phone := None;
     u_address := None; u_occupation := None; u_password := None |}.

(** A directory in which a record is filed under a key that is no
    address; Ana is logged in. *)
Definition nick_directory : gmap string json :=
  {[ "ana@example.com" :=
       userRecord "ana@example.com" "correct horse" (Some "Ana") None None None
         "2026-11-02T09:00:00.000Z";
     "nick" :=
       userRecord "nick" "battery staple" (Some "Nick") None None None
         "2026-11-02T10:00:00.000Z" ]}.

Definition ana_and_nick : Storage :=
  {[ STORAGE_USERS := TJson (JObj nick_directory);
     STORAGE_CURRENT :=
       TJson (JObj (registeredSession "ana@example.com" (Some "Ana") None None
                      None)) ]}.

Definition rename_to_nick : ProfileUpdates :=
  {| u_email := Some "Nick"; u_name := None; u_phone := None;
     u_address := None; u_occupation := None; u_password := None |}.

(** Ana asks for the address of Ben, in another case and padded. *)
Definition rename_to_ben : ProfileUpdates :=
  {| u_email := Some " Ben@Example.com"; u_name := None; u_phone := None;
     u_address := None; u_occupation := None; u_password := None |}.

(** The combined record is not JSON; a quiz record is there. *)
Definition garbled_state : Storage :=
  {[ STORAGE_APP_STATE := TGarbage; STORAGE_QUIZ := TJson sample_plan ]}.

(** An update that tries to clear the plan. *)
Definition clear_plan : gmap string value :=
  {[ "exitPlanData" := Some JNull; "isPlanGenerated" := Some (JBool false) ]}.

(** * Properties *)

(** ** Strings *)

Lemma app_cons c (s t : string) : String c s +:+ t = String c (s +:+ t).
Proof. reflexivity. Qed.

Lemma app_empty_l (t : string) : "" +:+ t = t.
Proof. reflexivity. Qed.

Lemma app_empty_r (s : string) : s +:+ "" = s.
Proof. induction s as [|c s IH]; [reflexivity|]. by rewrite app_cons, IH. Qed.

Lemma lower_char_whitespace c : is_whitespace c = true → lower_char c = c.
Proof. destruct c as [[] [] [] [] [] [] [] []]; (reflexivity || discriminate). Qed.

Lemma is_whitespace_lower c : is_whitespace (lower_char c) = is_whitespace c.
Proof. destruct c as [[] [] [] [] [] [] [] []]; reflexivity. Qed.

Lemma toLowerCase_app (s t : string) :
  toLowerCase (s +:+ t) = toLowerCase s +:+ toLowerCase t.
Proof.
  induction s as [|c s IH]; [reflexivity|].
  rewrite app_cons. simpl. by rewrite IH.
Qed.

Lemma toLowerCase_whitespace (s : string) :
  all_whitespace s = true → toLowerCase s = s.
Proof.
  induction s as [|c s IH]; [reflexivity|]. simpl.
  intros [Hc Hs]%andb_prop. by rewrite lower_char_whitespace, IH.
Qed.

Lemma trimStart_whitespace (s : string) :
  all_whitespace s = true → trimStart s = "".
Proof.
  induction s as [|c s IH]; [reflexivity|]. simpl.
  intros [-> Hs]%andb_prop. auto.
Qed.

Lemma trimEnd_whitespace (s : string) :
  all_whitespace s = true → trimEnd s = "".
Proof.
  induction s as [|c s IH]; [reflexivity|]. simpl.
  intros [-> Hs]%andb_prop. by rewrite IH.
Qed.

Lemma trimStart_app (s t : string) :
  trimStart (s +:+ t) =
  if all_whitespace s then trimStart t else trimStart s +:+ t.
Proof.
  induction s as [|c s IH]; [reflexivity|].
  rewrite app_cons. simpl. destruct (is_whitespace c); [exact IH|reflexivity].
Qed.

Lemma trimEnd_app_whitespace (s t : string) :
  all_whitespace t = true → trimEnd (s +:+ t) = trimEnd s.
Proof.
  intros Ht. induction s as [|c s IH].
  - by apply trimEnd_whitespace.
  - rewrite app_cons. simpl. by rewrite IH.
Qed.

(** Padding with white space does not change what [trim] returns. *)
Lemma trim_padding (l s r : string) :
  all_whitespace l = true → all_whitespace r = true →
  trim (l +:+ s +:+ r) = trim s.
Proof.
  intros Hl Hr. unfold trim.
  rewrite trimStart_app, Hl, trimStart_app.
  destruct (all_whitespace s) eqn:Hs.
  - by rewrite !trimStart_whitespace.
  - by apply trimEnd_app_whitespace.
Qed.

(** ** Regular expressions *)

Lemma dead_not_nullable r : dead r = true → nullable r = false.
Proof.
  induction r as [| |p|r1 IH1 r2 IH2|r1 IH1 r2 IH2|r1 IH1]; simpl; try done.
  - intros [H|H]%orb_prop; [rewrite (IH1 H)|rewrite (IH2 H)];
      [reflexivity|apply andb_false_r].
  - intros [H1 H2]%andb_prop. by rewrite IH1, IH2.
Qed.

Lemma deriv_dead c r : dead r = true → dead (deriv c r) = true.
Proof.
  induction r as [| |p|r1 IH1 r2 IH2|r1 IH1 r2 IH2|r1 IH1]; simpl; try done.
  - intros [H|H]%orb_prop.
    + rewrite (dead_not_nullable _ H). simpl. by rewrite IH1.
    + destruct (nullable r1); simpl; rewrite ?H, ?IH2, ?orb_true_r; done.
  - intros [H1 H2]%andb_prop. by rewrite IH1, IH2.
Qed.

Lemma test_dead r s : dead r = true → test r s = false.
Proof.
  revert r. induction s as [|c s IH]; intros r Hr; simpl.
  - by apply dead_not_nullable.
  - by apply IH, deriv_dead.
Qed.

(** A character that no class of [r] accepts kills the match. *)
Lemma deriv_rejected c r :
  classes (λ p, p c = false) r → dead (deriv c r) = true.
Proof.
  induction r as [| |p|r1 IH1 r2 IH2|r1 IH1 r2 IH2|r1 IH1]; simpl; try done.
  - by intros ->.
  - intros [H1 H2]. destruct (nullable r1); simpl; by rewrite IH1, ?IH2.
  - intros [H1 H2]. by rewrite IH1, IH2.
  - intros H. by rewrite IH1.
Qed.

Lemma test_forall (q : ascii → bool) r s :
  classes (λ p, ∀ c, p c = true → q c = true) r →
  test r s = true → string_forall q s = true.
Proof.
  intros Hr. revert r Hr. induction s as [|c s IH]; intros r Hr; simpl; [done|].
  intros Ht. destruct (q c) eqn:Hq; simpl.
  - apply (IH (deriv c r)); [|done]. clear -Hr.
    induction r as [| |p|r1 IH1 r2 IH2|r1 IH1 r2 IH2|r1 IH1]; simpl in *; try done.
    + by destruct (p c).
    + destruct Hr. destruct (nullable r1); simpl; auto.
    + destruct Hr; auto.
    + auto.
  - rewrite test_dead in Ht; [done|]. apply deriv_rejected. clear -Hr Hq.
    induction r as [| |p|r1 IH1 r2 IH2|r1 IH1 r2 IH2|r1 IH1]; simpl in *; try done.
    + destruct (p c) eqn:Hp; [|done]. apply Hr in Hp. congruence.
    + destruct Hr; auto.
    + destruct Hr; auto.
    + auto.
Qed.

(** A character map that no class of [r] can tell apart from the identity
    does not change the outcome of a match. *)
Lemma deriv_respects (f : ascii → ascii) c r :
  classes (λ p, ∀ x, p (f x) = p x) r → deriv (f c) r = deriv c r.
Proof.
  induction r as [| |p|r1 IH1 r2 IH2|r1 IH1 r2 IH2|r1 IH1]; simpl; try done.
  - by intros ->.
  - intros [H1 H2]. by rewrite IH1, IH2.
  - intros [H1 H2]. by rewrite IH1, IH2.
  - intros H. by rewrite IH1.
Qed.

Lemma requires_not_nullable c r : requires c r → nullable r = false.
Proof.
  induction r as [| |p|r1 IH1 r2 IH2|r1 IH1 r2 IH2|r1 IH1]; simpl; try done.
  - intros [H|H]; [by rewrite IH1|by rewrite IH2, andb_false_r].
  - intros [H1 H2]. by rewrite IH1, IH2.
Qed.

Lemma requires_deriv c x r : x ≠ c → requires c r → requires c (deriv x r).
Proof.
  intros Hx.
  induction r as [| |p|r1 IH1 r2 IH2|r1 IH1 r2 IH2|r1 IH1]; simpl; try done.
  - intros Hp. destruct (p x) eqn:Hpx; simpl; [|done]. by apply Hp in Hpx.
  - intros [H|H].
    + rewrite (requires_not_nullable _ _ H). simpl. auto.
    + destruct (nullable r1); simpl; auto.
  - intros [H1 H2]. auto.
Qed.

Lemma test_requires c r s : requires c r → test r s = true → occurs c s = true.
Proof.
  revert r. induction s as [|x s IH]; intros r Hr; simpl.
  - by rewrite (requires_not_nullable _ _ Hr).
  - destruct (Ascii.eqb c x) eqn:Hcx; [done|]. simpl.
    apply IH, requires_deriv; [|done].
    intros ->. by rewrite Ascii.eqb_refl in Hcx.
Qed.

Lemma classes_deriv P c r : classes P r → classes P (deriv c r).
Proof.
  induction r as [| |p|r1 IH1 r2 IH2|r1 IH1 r2 IH2|r1 IH1]; simpl; try done.
  - by destruct (p c).
  - intros [H1 H2]. destruct (nullable r1); simpl; auto.
  - intros [H1 H2]. auto.
  - intros H. auto.
Qed.

Lemma test_respects (f : ascii → ascii) r s :
  classes (λ p, ∀ x, p (f x) = p x) r → test r (map_chars f s) = test r s.
Proof.
  revert r. induction s as [|c s IH]; intros r Hr; simpl; [done|].
  rewrite deriv_respects by done. by apply IH, classes_deriv.
Qed.

Lemma toLowerCase_map_chars s : toLowerCase s = map_chars lower_char s.
Proof. induction s as [|c s IH]; simpl; by rewrite ?IH. Qed.

Lemma app_eq_empty (s t : string) : s +:+ t = "" → s = "" ∧ t = "".
Proof. destruct s; [done|]. by rewrite app_cons. Qed.

Lemma app_eq_cons (s t : string) c u :
  s +:+ t = String c u →
  (s = "" ∧ t = String c u) ∨ ∃ s', s = String c s' ∧ u = s' +:+ t.
Proof.
  destruct s as [|c' s]; [by left|]. rewrite app_cons. intros [= -> <-].
  right. by eexists.
Qed.

Lemma nullable_matches r : nullable r = true ↔ matches r "".
Proof.
  split.
  - induction r as [| |p|r1 IH1 r2 IH2|r1 IH1 r2 IH2|r1 IH1]; simpl; try done.
    + intros _. constructor.
    + intros [H1 H2]%andb_prop. apply (matches_cat r1 r2 "" ""); auto.
    + intros [H|H]%orb_prop; [apply matches_alt_l|apply matches_alt_r]; auto.
    + intros _. constructor.
  - intros H. remember "" as s eqn:Hs. induction H; simpl; try done.
    + apply app_eq_empty in Hs as [-> ->]. by rewrite IHmatches1, IHmatches2.
    + by rewrite IHmatches.
    + by rewrite IHmatches, orb_true_r.
Qed.

(** A non-empty match of [Star r] starts with a non-empty match of [r]. *)
Lemma matches_star_cons_inv r c s :
  matches (Star r) (String c s) →
  ∃ s1 s2, s = s1 +:+ s2 ∧ matches r (String c s1) ∧ matches (Star r) s2.
Proof.
  intros H. remember (Star r) as r' eqn:Hr. remember (String c s) as s' eqn:Hs.
  revert Hr Hs. induction H as [| | | | | |r0 s1 s2 H1 _ H2 IH2]; try done.
  intros [= ->] Hs. apply app_eq_cons in Hs as [[-> ->]|(s1' & -> & ->)].
  - by apply IH2.
  - by exists s1', s2.
Qed.

Lemma deriv_matches c r s : matches (deriv c r) s ↔ matches r (String c s).
Proof.
  revert s. induction r as [| |p|r1 IH1 r2 IH2|r1 IH1 r2 IH2|r1 IH1];
    intros s; simpl.
  - split; inversion 1.
  - split; inversion 1.
  - destruct (p c) eqn:Hp; split; inversion 1; subst.
    + by constructor.
    + constructor.
    + congruence.
  - assert (matches (Cat (deriv c r1) r2) s ↔
            ∃ s1 s2, s = s1 +:+ s2 ∧ matches r1 (String c s1) ∧ matches r2 s2)
      as Hcat.
    { split.
      - inversion 1; subst. do 2 eexists. split; [done|]. by rewrite <-IH1.
      - intros (s1 & s2 & -> & H1 & H2). constructor; [by apply IH1|done]. }
    split.
    + intros H.
      assert ((∃ s1 s2, s = s1 +:+ s2 ∧ matches r1 (String c s1) ∧ matches r2 s2)
              ∨ (nullable r1 = true ∧ matches r2 (String c s))) as [Hl|[Hn Hr]].
      { destruct (nullable r1) eqn:Hn.
        - inversion H; subst; [left; by apply Hcat|right; by rewrite <-IH2].
        - left. by apply Hcat. }
      * destruct Hl as (s1 & s2 & -> & H1 & H2).
        by apply (matches_cat r1 r2 (String c s1) s2).
      * apply (matches_cat r1 r2 "" (String c s)); [by apply nullable_matches|done].
    + inversion 1 as [| |? ? s1 s2 H1 H2 Heq1 Heq2| | | |]; subst.
      apply app_eq_cons in Heq2 as [[-> ->]|(s1' & -> & ->)].
      * apply nullable_matches in H1. rewrite H1.
        apply matches_alt_r. by apply IH2.
      * assert (matches (Cat (deriv c r1) r2) (s1' +:+ s2)) as Hc.
        { apply Hcat. by exists s1', s2. }
        destruct (nullable r1); [by apply matches_alt_l|done].
  - split.
    + inversion 1; subst; [apply matches_alt_l; by apply IH1
                          |apply matches_alt_r; by apply IH2].
    + inversion 1; subst; [apply matches_alt_l; by apply IH1
                          |apply matches_alt_r; by apply IH2].
  - split.
    + inversion 1; subst.
      apply (matches_star_cons r1 (String c _)); [by apply IH1|done].
    + intros (s1 & s2 & -> & H1 & H2)%matches_star_cons_inv.
      constructor; [by apply IH1|done].
Qed.

(** [test] decides membership. *)
Lemma test_matches r s : test r s = true ↔ matches r s.
Proof.
  revert r. induction s as [|c s IH]; intros r; simpl.
  - apply nullable_matches.
  - rewrite IH. apply deriv_matches.
Qed.

Lemma matches_chr c s : matches (Chr c) s ↔ s = String c "".
Proof.
  unfold Chr. split.
  - inversion 1 as [|? ? Hc| | | | |]; subst. by apply Ascii.eqb_eq in Hc as ->.
  - intros ->. constructor. apply Ascii.eqb_refl.
Qed.

Lemma matches_star_class p s :
  matches (Star (Class p)) s ↔ string_forall p s = true.
Proof.
  split.
  - intros H. remember (Star (Class p)) as r eqn:Hr. revert Hr.
    induction H as [| | | | | |r0 s1 s2 H1 _ H2 IH2]; try done.
    intros [= ->]. inversion H1; subst. rewrite app_cons. simpl.
    rewrite app_empty_l. apply andb_true_intro. auto.
  - induction s as [|c s IH]; simpl; [constructor|].
    intros [Hc Hs]%andb_prop.
    apply (matches_star_cons (Class p) (String c "") s); [by constructor|auto].
Qed.

Lemma matches_plus_class p s :
  matches (Plus (Class p)) s ↔ s ≠ "" ∧ string_forall p s = true.
Proof.
  unfold Plus. split.
  - inversion 1 as [| |? ? s1 s2 H1 H2| | | |]; subst.
    inversion H1; subst. apply matches_star_class in H2.
    rewrite app_cons, app_empty_l. simpl. split; [done|].
    apply andb_true_intro. auto.
  - intros [Hne Hs]. destruct s as [|c s]; [done|]. simpl in Hs.
    apply andb_prop in Hs as [Hc Hs].
    apply (matches_cat (Class p) (Star (Class p)) (String c "") s);
      [by constructor|by apply matches_star_class].
Qed.

(** X1: what the pattern check accepts: a local part, [@], a domain part,
    a dot and a last part, each non-empty and free of white space and [@]. *)
Lemma isValidEmail_shape e :
  isValidEmail e = true ↔
  ∃ a b c,
    e = a +:+ "@" +:+ b +:+ "." +:+ c ∧
    (a ≠ "" ∧ string_forall plain_char a = true) ∧
    (b ≠ "" ∧ string_forall plain_char b = true) ∧
    (c ≠ "" ∧ string_forall plain_char c = true).
Proof.
  unfold isValidEmail. rewrite test_matches. unfold email_re. split.
  - inversion 1 as [| |? ? a s1 Ha H1| | | |]; subst.
    inversion H1 as [| |? ? at_ s2 Hat H2| | | |]; subst.
    inversion H2 as [| |? ? b s3 Hb H3| | | |]; subst.
    inversion H3 as [| |? ? dot c Hdot Hc| | | |]; subst.
    apply matches_chr in Hat as ->. apply matches_chr in Hdot as ->.
    exists a, b, c. split; [done|].
    by rewrite <-!matches_plus_class.
  - intros (a & b & c & -> & Ha & Hb & Hc).
    repeat (constructor; try by apply matches_plus_class);
      by apply matches_chr.
Qed.

(** ** E-mail addresses *)

Lemma plain_char_lower c : plain_char (lower_char c) = plain_char c.
Proof. destruct c as [[] [] [] [] [] [] [] []]; reflexivity. Qed.

(** A character below the letters is the lower-case form of itself
    only. *)
Lemma eqb_lower_char (k c : ascii) :
  (N_of_ascii k <? 65)%N = true →
  Ascii.eqb k (lower_char c) = Ascii.eqb k c.
Proof.
  intros Hk. destruct (Ascii.eqb k c) eqn:Hkc.
  - apply Ascii.eqb_eq in Hkc as <-. apply Ascii.eqb_eq. revert Hk.
    destruct k as [[] [] [] [] [] [] [] []]; vm_compute; congruence.
  - apply Ascii.eqb_neq. intros ->. revert Hk Hkc.
    destruct c as [[] [] [] [] [] [] [] []]; vm_compute; congruence.
Qed.

Lemma isValidEmail_toLowerCase e : isValidEmail (toLowerCase e) = isValidEmail e.
Proof.
  unfold isValidEmail. rewrite toLowerCase_map_chars. apply test_respects.
  unfold email_re, Plus, Chr. cbn [classes].
  repeat split; intros x;
    solve [apply plain_char_lower | by apply eqb_lower_char].
Qed.

Lemma isValidEmail_no_whitespace e :
  isValidEmail e = true → string_forall (λ c, negb (is_whitespace c)) e = true.
Proof.
  apply test_forall. unfold email_re, Plus, Chr, plain_char. cbn [classes].
  repeat split; intros c.
  all: try (intros [H _]%negb_true_iff%orb_false_elim; by rewrite H).
  all: intros <-%Ascii.eqb_eq; reflexivity.
Qed.

Lemma isValidEmail_at e : isValidEmail e = true → occurs "@" e = true.
Proof.
  apply test_requires. unfold email_re, Chr. cbn [requires].
  right. left. intros x Hx. by apply Ascii.eqb_eq in Hx.
Qed.

Lemma trimStart_no_whitespace s :
  string_forall (λ c, negb (is_whitespace c)) s = true → trimStart s = s.
Proof.
  destruct s as [|c s]; [done|]. simpl.
  intros [Hc _]%andb_prop. by apply negb_true_iff in Hc as ->.
Qed.

Lemma trimEnd_no_whitespace s :
  string_forall (λ c, negb (is_whitespace c)) s = true → trimEnd s = s.
Proof.
  induction s as [|c s IH]; [done|]. simpl.
  intros [Hc Hs]%andb_prop. rewrite (IH Hs).
  apply negb_true_iff in Hc as ->. by destruct s.
Qed.

Lemma trim_no_whitespace s :
  string_forall (λ c, negb (is_whitespace c)) s = true → trim s = s.
Proof.
  intros H. unfold trim. by rewrite trimStart_no_whitespace, trimEnd_no_whitespace.
Qed.

Lemma string_forall_map_chars q f s :
  (∀ c, q (f c) = q c) →
  string_forall q (map_chars f s) = string_forall q s.
Proof. intros Hq. induction s as [|c s IH]; simpl; by rewrite ?Hq, ?IH. Qed.

Lemma occurs_map_chars k f s :
  f k = k → occurs k s = true → occurs k (map_chars f s) = true.
Proof.
  intros Hk. induction s as [|c s IH]; simpl; [done|].
  intros [Hc|Hs]%orb_prop.
  - apply Ascii.eqb_eq in Hc as <-. by rewrite Hk, Ascii.eqb_refl.
  - by rewrite IH, orb_true_r.
Qed.

(** The key under which a pattern-checked address is filed. *)
Lemma valid_key e :
  isValidEmail e = true →
  trim (toLowerCase e) = toLowerCase e ∧
  isValidEmail (trim (toLowerCase e)) = true ∧
  occurs "@" (trim (toLowerCase e)) = true.
Proof.
  intros He.
  assert (trim (toLowerCase e) = toLowerCase e) as ->.
  { apply trim_no_whitespace. rewrite toLowerCase_map_chars.
    rewrite string_forall_map_chars; [by apply isValidEmail_no_whitespace|].
    intros c. by rewrite is_whitespace_lower. }
  split; [done|]. split; [by rewrite isValidEmail_toLowerCase|].
  rewrite toLowerCase_map_chars. apply occurs_map_chars; [done|].
  by apply isValidEmail_at.
Qed.

Lemma inherited_no_at k : k ∈ Object_prototype → occurs "@" k = false.
Proof.
  unfold Object_prototype. rewrite !elem_of_cons, elem_of_nil.
  intros H. repeat (destruct H as [->|H]; [reflexivity|]). done.
Qed.

Lemma valid_key_not_inherited e :
  isValidEmail e = true →
  bool_decide (trim (toLowerCase e) ∈ Object_prototype) = false ∧
  bool_decide (trim (toLowerCase e) = "__proto__") = false.
Proof.
  intros (_ & _ & Hat)%valid_key. split.
  - apply bool_decide_eq_false. intros Hin%inherited_no_at. congruence.
  - apply bool_decide_eq_false. intros Heq. rewrite Heq in Hat. done.
Qed.

(** ** Storage keys *)

Lemma suffixed_key_inj (base s1 s2 : string) :
  base +:+ s1 = base +:+ s2 → s1 = s2.
Proof. apply (inj (String.app base)). Qed.

Lemma quiz_ne_tasks s s' : STORAGE_QUIZ +:+ s ≠ STORAGE_TASKS +:+ s'.
Proof. key_ne. Qed.
Lemma quiz_ne_app s s' : STORAGE_QUIZ +:+ s ≠ STORAGE_APP_STATE +:+ s'.
Proof. key_ne. Qed.
Lemma tasks_ne_app s s' : STORAGE_TASKS +:+ s ≠ STORAGE_APP_STATE +:+ s'.
Proof. key_ne. Qed.
Lemma quiz_ne_current s : STORAGE_QUIZ +:+ s ≠ STORAGE_CURRENT.
Proof. key_ne. Qed.
Lemma tasks_ne_current s : STORAGE_TASKS +:+ s ≠ STORAGE_CURRENT.
Proof. key_ne. Qed.
Lemma app_ne_current s : STORAGE_APP_STATE +:+ s ≠ STORAGE_CURRENT.
Proof. key_ne. Qed.
Lemma quiz_ne_users s : STORAGE_QUIZ +:+ s ≠ STORAGE_USERS.
Proof. key_ne. Qed.
Lemma tasks_ne_users s : STORAGE_TASKS +:+ s ≠ STORAGE_USERS.
Proof. key_ne. Qed.
Lemma app_ne_users s : STORAGE_APP_STATE +:+ s ≠ STORAGE_USERS.
Proof. key_ne. Qed.

Lemma state_keys_disjoint s1 s2 k :
  s1 ≠ s2 → k ∈ state_keys s1 → k ∉ state_keys s2.
Proof.
  intros Hne. unfold state_keys. rewrite !elem_of_cons, !elem_of_nil.
  intros [->|[->|[->|[]]]] [H|[H|[H|[]]]]; revert H;
    solve [ by intros ?%suffixed_key_inj
          | apply quiz_ne_tasks | apply quiz_ne_app | apply tasks_ne_app
          | apply not_eq_sym, quiz_ne_tasks | apply not_eq_sym, quiz_ne_app
          | apply not_eq_sym, tasks_ne_app ].
Qed.

Lemma state_keys_not_current s : STORAGE_CURRENT ∉ state_keys s.
Proof.
  unfold state_keys. rewrite !elem_of_cons, !elem_of_nil.
  intros [H|[H|[H|[]]]]; symmetry in H; revert H;
    [apply quiz_ne_current|apply tasks_ne_current|apply app_ne_current].
Qed.

Lemma state_keys_not_users s : STORAGE_USERS ∉ state_keys s.
Proof.
  unfold state_keys. rewrite !elem_of_cons, !elem_of_nil.
  intros [H|[H|[H|[]]]]; symmetry in H; revert H;
    [apply quiz_ne_users|apply tasks_ne_users|apply app_ne_users].
Qed.

(** ** What the readers depend on *)

Lemma getStorageSuffix_ext (st st' : Storage) :
  st !! STORAGE_CURRENT = st' !! STORAGE_CURRENT →
  getStorageSuffix st = getStorageSuffix st'.
Proof. intros H. unfold getStorageSuffix, getItem. by rewrite H. Qed.

Lemma getCurrentUser_ext (st st' : Storage) :
  st !! STORAGE_CURRENT = st' !! STORAGE_CURRENT →
  getCurrentUser st = getCurrentUser st'.
Proof. intros H. unfold getCurrentUser, getItem. by rewrite H. Qed.

Lemma getUsers_ext (st st' : Storage) :
  st !! STORAGE_USERS = st' !! STORAGE_USERS → getUsers st = getUsers st'.
Proof. intros H. unfold getUsers, getItem. by rewrite H. Qed.

Lemma getExitPlanData_ext (st st' : Storage) :
  same_view st st' → getExitPlanData st = getExitPlanData st'.
Proof.
  intros [Hc Hk]. unfold getExitPlanData, getItem.
  rewrite <-(getStorageSuffix_ext st st' Hc), Hk; [done|].
  unfold state_keys. set_solver.
Qed.

Lemma getTasks_ext (st st' : Storage) :
  same_view st st' → getTasks st = getTasks st'.
Proof.
  intros [Hc Hk]. unfold getTasks, getItem.
  rewrite <-(getStorageSuffix_ext st st' Hc), Hk; [done|].
  unfold state_keys. set_solver.
Qed.

Lemma getAppState_ext (st st' : Storage) :
  same_view st st' → getAppState st = getAppState st'.
Proof.
  intros Hv. unfold getAppState, getItem.
  rewrite <-(getExitPlanData_ext st st' Hv), <-(getTasks_ext st st' Hv).
  destruct Hv as [Hc Hk].
  rewrite <-(getStorageSuffix_ext st st' Hc), Hk; [done|].
  unfold state_keys. set_solver.
Qed.

(** ** The writes of [saveAppState] *)

Lemma planned_writes_keys updates st :
  (planned_writes updates st).*1 ⊆ state_keys (getStorageSuffix st).
Proof.
  unfold planned_writes, state_keys. intros k.
  destruct (not_nullish _); destruct (_ && _); cbn [app fmap list_fmap fst];
    rewrite !elem_of_cons, !elem_of_nil; tauto.
Qed.

Lemma planned_writes_nonempty updates st : planned_writes updates st ≠ [].
Proof.
  unfold planned_writes. destruct (not_nullish _); destruct (_ && _); done.
Qed.

Section SaveAppState.
Context (quota_exceeded : Storage → string → text → bool).

Lemma saveAppState_plan updates st :
  saveAppState quota_exceeded updates st =
  Done (store_all quota_exceeded (planned_writes updates st) st).1
       (store_all quota_exceeded (planned_writes updates st) st).2.
Proof.
  unfold saveAppState, planned_writes, combined_record, merged, member,
    try_catch, bind, read, ret, setItem.
  destruct (not_nullish _); destruct (_ && _); simpl;
    repeat (match goal with
            | |- context [quota_exceeded ?s ?k ?t] =>
                destruct (quota_exceeded s k t); simpl
            end); reflexivity.
Qed.

Lemma store_all_lookup_ne ws st k :
  k ∉ ws.*1 → (store_all quota_exceeded ws st).2 !! k = st !! k.
Proof.
  revert st. induction ws as [|[k' t] ws IH]; intros st Hk; simpl; [done|].
  rewrite fmap_cons, not_elem_of_cons in Hk. destruct Hk as [Hne Hk].
  destruct (quota_exceeded st k' t); simpl; [done|].
  rewrite IH by done. by rewrite lookup_insert_ne.
Qed.

Lemma store_all_keeps ws st k :
  is_Some (st !! k) → is_Some ((store_all quota_exceeded ws st).2 !! k).
Proof.
  revert st. induction ws as [|[k' t] ws IH]; intros st Hk; simpl; [done|].
  destruct (quota_exceeded st k' t); simpl; [done|].
  apply IH. rewrite lookup_insert. case_decide; [by eexists|done].
Qed.

Lemma store_all_refused ws st :
  (∀ s k t, quota_exceeded s k t = true) → ws ≠ [] →
  store_all quota_exceeded ws st = (false, st).
Proof. intros Hq Hws. destruct ws as [|[k t] ws]; [done|]. simpl. by rewrite Hq. Qed.

Lemma store_all_done ws st :
  (store_all quota_exceeded ws st).1 = true →
  (store_all quota_exceeded ws st).2 = foldl (λ s w, <[w.1 := w.2]> s) st ws.
Proof.
  revert st. induction ws as [|[k t] ws IH]; intros st; simpl; [done|].
  destruct (quota_exceeded st k t); simpl; [done|]. apply IH.
Qed.

End SaveAppState.

(** ** Reading the application state *)

Lemma getAppState_fields st name :
  name ∈ state_fields → is_Some (getAppState st !! name).
Proof.
  intros Hname.
  assert (is_Some (defaultAppState !! name)) as Hdefault.
  { unfold state_fields in Hname. rewrite !elem_of_cons, elem_of_nil in Hname.
    destruct Hname as [->|[->|[->|[]]]]; by eexists. }
  unfold getAppState.
  destruct (parse_or _ _) as [state|]; cbn [catch exc_bind]; [|done].
  destruct (prop (Some state) "isPlanGenerated") as [g|];
    cbn [catch exc_bind]; [|done].
  destruct (prop (Some state) "exitPlanData") as [p|];
    cbn [catch exc_bind]; [|done].
  destruct (prop (Some state) "completedTasks") as [t|];
    cbn [catch exc_bind]; [|done].
  apply lookup_union_is_Some. right.
  unfold state_fields in Hname. rewrite !elem_of_cons, elem_of_nil in Hname.
  destruct Hname as [->|[->|[->|[]]]]; by eexists.
Qed.

(** The members of the stored combined record come first. *)
Lemma getAppState_stored st m name v :
  st !! (STORAGE_APP_STATE +:+ getStorageSuffix st) = Some (TJson (JObj m)) →
  m !! name = Some v →
  getAppState st !! name = Some v.
Proof.
  intros Hraw Hm. unfold getAppState, getItem. rewrite Hraw. simpl.
  by apply lookup_union_Some_l.
Qed.

Section AppState.
Context (quota_exceeded : Storage → string → text → bool).

Lemma saveAppState_total updates st :
  ∃ b st', saveAppState quota_exceeded updates st = Done b st'.
Proof. rewrite saveAppState_plan. eauto. Qed.

Lemma saveAppState_current updates st b st' :
  saveAppState quota_exceeded updates st = Done b st' →
  st' !! STORAGE_CURRENT = st !! STORAGE_CURRENT.
Proof.
  rewrite saveAppState_plan. intros [= _ <-].
  apply store_all_lookup_ne. intros H%planned_writes_keys.
  by apply state_keys_not_current in H.
Qed.

Lemma saveAppState_frame updates st b st' k :
  saveAppState quota_exceeded updates st = Done b st' →
  k ∉ state_keys (getStorageSuffix st) →
  st' !! k = st !! k.
Proof.
  rewrite saveAppState_plan. intros [= _ <-] Hk.
  apply store_all_lookup_ne. intros H%planned_writes_keys. done.
Qed.

(** What a successful [saveAppState({exitPlanData: X})] leaves for the
    next [getAppState]: the plan, and the flag as it was read before. *)
Lemma saveAppState_plan_then_read X st st' :
  X ≠ JNull →
  saveAppState quota_exceeded {[ "exitPlanData" := Some X ]} st = Done true st' →
  getAppState st' !! "exitPlanData" = Some X ∧
  getAppState st' !! "isPlanGenerated" = getAppState st !! "isPlanGenerated".
Proof.
  intros HX Hsave.
  pose proof (saveAppState_current _ _ _ _ Hsave) as Hcur.
  apply getStorageSuffix_ext in Hcur.
  destruct (getAppState_fields st "isPlanGenerated") as [g Hg];
    [unfold state_fields; set_solver|].
  rewrite saveAppState_plan in Hsave. injection Hsave as Hb Hst.
  apply store_all_done in Hb. rewrite Hst in Hb. clear Hst.
  set (next := merged {[ "exitPlanData" := Some X ]} st) in *.
  assert (member next "exitPlanData" = Some X) as HmX.
  { unfold member, next, merged. by rewrite lookup_union_l', lookup_singleton_eq
      by (rewrite lookup_singleton_eq; eauto). }
  assert (member next "isPlanGenerated" = Some g) as Hmg.
  { unfold member, next, merged.
    rewrite lookup_union_r by done. by rewrite lookup_fmap, Hg. }
  assert (st' !! (STORAGE_APP_STATE +:+ getStorageSuffix st')
          = Some (combined_record next)) as Hraw.
  { rewrite Hcur, Hb. unfold planned_writes. fold next.
    destruct (not_nullish _); destruct (_ && _); simpl;
      by rewrite lookup_insert_eq. }
  unfold combined_record, JSON_stringify_object, object in Hraw.
  rewrite Hg. split.
  - eapply getAppState_stored; [exact Hraw|].
    rewrite lookup_omap. simpl.
    rewrite lookup_insert_ne by done. rewrite lookup_insert_eq. by rewrite HmX.
  - eapply getAppState_stored; [exact Hraw|].
    rewrite lookup_omap. simpl. rewrite lookup_insert_eq. by rewrite Hmg.
Qed.

(** X2: what [saveAppState] writes under one suffix is not read under
    another: with the session replaced by one of a different suffix,
    [getAppState] returns after the call what it returns before. *)
Lemma saveAppState_isolated updates st b st' session :
  saveAppState quota_exceeded updates st = Done b st' →
  getStorageSuffix (<[STORAGE_CURRENT := session]> st) ≠ getStorageSuffix st →
  getAppState (<[STORAGE_CURRENT := session]> st')
  = getAppState (<[STORAGE_CURRENT := session]> st).
Proof.
  intros Hsave Hne. symmetry. apply getAppState_ext. split.
  - by rewrite !lookup_insert_eq.
  - intros k Hk.
    assert (k ≠ STORAGE_CURRENT) as Hkc.
    { intros ->. by apply state_keys_not_current in Hk. }
    rewrite !lookup_insert_ne by done. symmetry.
    eapply saveAppState_frame; [exact Hsave|].
    intros Hk'. by apply (state_keys_disjoint _ _ _ Hne Hk).
Qed.

End AppState.

(** ** The storage suffix *)


(** The suffix in terms of the session that [getCurrentUser] returns: a
    truthy address is converted to a string and sanitized, and a
    conversion that raises leaves the suffix empty. *)
Lemma getStorageSuffix_eq (st : Storage) :
  getStorageSuffix st =
    match getCurrentUser st with
    | JObj session =>
        match session !! "email" with
        | Some e =>
            if truthy e then
              catch (let* s := ToString e in Return ("_" +:+ sanitize s)) ""
            else ""
        | None => ""
        end
    | _ => ""
    end.
Proof.
  unfold getStorageSuffix, getCurrentUser, getItem.
  destruct (st !! STORAGE_CURRENT) as [[| |v]|]; simpl; try reflexivity.
  destruct v as [|b|n|s|l|m]; simpl; try reflexivity.
  - destruct b; reflexivity.
  - destruct (n =? 0)%Z; reflexivity.
  - destruct (String.eqb s ""); reflexivity.
  - destruct (m !! "isLoggedIn") as [j|]; simpl; [|reflexivity].
    destruct (truthy j); simpl; [|reflexivity].
    destruct (m !! "email") as [e|]; simpl; [|reflexivity].
    destruct (truthy e); reflexivity.
Qed.

(** A session that no function of the program writes, with the logged-in
    flag and the empty string as its address, has the empty suffix. *)
Lemma getStorageSuffix_empty_email :
  getCurrentUser session_with_empty_email
    = JObj {[ "email" := JStr ""; "isLoggedIn" := JBool true ]} ∧
  getStorageSuffix session_with_empty_email = "".
Proof. repeat split. Qed.

(** ** The application state *)

(** C1: on an empty storage, [saveAppState({exitPlanData: X})] succeeds and
    the next [getAppState] returns [X] as [exitPlanData] but [false] as
    [isPlanGenerated]: the stored flag, spread last, overrides the computed
    one. *)
Theorem saveAppState_then_getAppState_flag :
  saveAppState accept_all {[ "exitPlanData" := Some sample_plan ]} ∅
    = Done true after_first_plan ∧
  getAppState after_first_plan !! "exitPlanData" = Some sample_plan ∧
  getAppState after_first_plan !! "isPlanGenerated" = Some (JBool false).
Proof. repeat split; vm_compute; reflexivity. Qed.

(** C2: a user registers and saves a plan; the state that [getAppState]
    then returns has [exitPlanData] present and [isPlanGenerated] false. *)
Theorem getAppState_plan_without_flag :
  register accept_all "2026-11-02T09:00:00.000Z" "ana@example.com"
      "correct horse" (Some "Ana") None None (Some "student") ∅
    = Done success ana_registered ∧
  saveAppState accept_all {[ "exitPlanData" := Some sample_plan ]} ana_registered
    = Done true ana_saved_plan ∧
  getAppState ana_saved_plan !! "exitPlanData" = Some sample_plan ∧
  not_nullish (Some sample_plan) = true ∧
  getAppState ana_saved_plan !! "isPlanGenerated" = Some (JBool false).
Proof. repeat split; vm_compute; reflexivity. Qed.

(** C3: [dana+home@example.com] registers and saves a plan; then
    [dana_home@example.com] registers, which makes theirs the active
    session; both are valid, distinct addresses with a record each, and the
    second session reads the plan of the first. *)
Theorem getAppState_shared_by_two_emails :
  register accept_all "2026-11-02T09:00:00.000Z" dana_plus "first password"
      (Some "Dana") None None None ∅
    = Done success dana_plus_registered ∧
  saveAppState accept_all {[ "exitPlanData" := Some sample_plan ]}
      dana_plus_registered
    = Done true dana_plus_saved ∧
  register accept_all "2026-11-03T09:00:00.000Z" dana_underscore
      "other password" (Some "Dan") None None None dana_plus_saved
    = Done success dana_underscore_registered ∧
  prop (Some (getCurrentUser dana_plus_saved)) "email"
    = Return (Some (JStr dana_plus)) ∧
  prop (Some (getCurrentUser dana_underscore_registered)) "email"
    = Return (Some (JStr dana_underscore)) ∧
  String.eqb dana_plus dana_underscore = false ∧
  getStorageSuffix dana_underscore_registered = getStorageSuffix dana_plus_saved ∧
  getAppState dana_underscore_registered !! "exitPlanData" = Some sample_plan.
Proof. repeat split; vm_compute; reflexivity. Qed.

Section AppStateClaims.
Context (quota_exceeded : Storage → string → text → bool).

Lemma store_all_false_iff ws st :
  (store_all quota_exceeded ws st).1 = false ↔ refused quota_exceeded ws st.
Proof.
  split.
  - revert st. induction ws as [|[k t] ws IH]; intros st; simpl; [done|].
    destruct (quota_exceeded st k t) eqn:Hq; simpl.
    + intros _. by exists [], k, t, ws.
    + intros (pre & k' & t' & post & -> & Hpre & Hq')%IH.
      exists ((k, t) :: pre), k', t', post. simpl. by rewrite Hq.
  - intros (pre & k & t & post & -> & Hpre & Hq).
    revert st Hpre Hq. induction pre as [|[k0 t0] pre IH]; intros st; simpl.
    + intros _ ->. done.
    + destruct (quota_exceeded st k0 t0); simpl; [done|]. apply IH.
Qed.

(** C7: [getAppState] is a total function whose result carries the three
    members; an unreadable combined record yields the three defaults, an
    unreadable quiz record counts as [null] and an unreadable task record
    as [{}], exactly as if the entry were absent; [saveAppState] always
    returns a boolean, and it returns [false] exactly when the browser
    refused one of its writes. *)
Theorem app_state_never_fails (st : Storage) (updates : gmap string value) :
  let suffix := getStorageSuffix st in
  (∀ name, name ∈ state_fields → is_Some (getAppState st !! name)) ∧
  (st !! (STORAGE_APP_STATE +:+ suffix) = Some TGarbage →
     getAppState st = defaultAppState) ∧
  (st !! (STORAGE_QUIZ +:+ suffix) = Some TGarbage →
     getExitPlanData st = JNull ∧
     getAppState st = getAppState (delete (STORAGE_QUIZ +:+ suffix) st)) ∧
  (st !! (STORAGE_TASKS +:+ suffix) = Some TGarbage →
     getTasks st = JObj ∅ ∧
     getAppState st = getAppState (delete (STORAGE_TASKS +:+ suffix) st)) ∧
  (∃ b st',
     saveAppState quota_exceeded updates st = Done b st' ∧
     (b = false ↔ refused quota_exceeded (planned_writes updates st) st)).
Proof.
  intros suffix. split; [apply getAppState_fields|].
  split; [|split; [|split]].
  - intros Hraw. unfold getAppState, getItem. fold suffix. by rewrite Hraw.
  - intros Hraw.
    assert (getStorageSuffix (delete (STORAGE_QUIZ +:+ suffix) st) = suffix)
      as Hsuffix.
    { apply getStorageSuffix_ext, lookup_delete_ne, quiz_ne_current. }
    assert (getExitPlanData st = JNull) as Hplan.
    { unfold getExitPlanData, getItem. fold suffix. by rewrite Hraw. }
    split; [done|].
    unfold getAppState, getItem. rewrite Hsuffix. fold suffix.
    rewrite lookup_delete_ne by apply quiz_ne_app. rewrite Hplan.
    replace (getExitPlanData (delete (STORAGE_QUIZ +:+ suffix) st)) with JNull.
    2:{ unfold getExitPlanData, getItem. rewrite Hsuffix.
        by rewrite lookup_delete_eq. }
    replace (getTasks (delete (STORAGE_QUIZ +:+ suffix) st)) with (getTasks st).
    2:{ unfold getTasks, getItem. rewrite Hsuffix. fold suffix.
        by rewrite lookup_delete_ne by apply quiz_ne_tasks. }
    done.
  - intros Hraw.
    assert (getStorageSuffix (delete (STORAGE_TASKS +:+ suffix) st) = suffix)
      as Hsuffix.
    { apply getStorageSuffix_ext, lookup_delete_ne, tasks_ne_current. }
    assert (getTasks st = JObj ∅) as Htasks.
    { unfold getTasks, getItem. fold suffix. by rewrite Hraw. }
    split; [done|].
    unfold getAppState, getItem. rewrite Hsuffix. fold suffix.
    rewrite lookup_delete_ne by apply tasks_ne_app. rewrite Htasks.
    replace (getTasks (delete (STORAGE_TASKS +:+ suffix) st)) with (JObj ∅).
    2:{ unfold getTasks, getItem. rewrite Hsuffix.
        by rewrite lookup_delete_eq. }
    replace (getExitPlanData (delete (STORAGE_TASKS +:+ suffix) st))
      with (getExitPlanData st).
    2:{ unfold getExitPlanData, getItem. rewrite Hsuffix. fold suffix.
        by rewrite lookup_delete_ne by apply not_eq_sym, quiz_ne_tasks. }
    done.
  - rewrite saveAppState_plan. do 2 eexists. split; [done|].
    apply store_all_false_iff.
Qed.

(** C10: [saveAppState] removes no entry; when the merged state carries
    no plan ([exitPlanData] is [null] or [undefined]) the standalone quiz
    record of the current suffix is the one that was there, and
    [getExitPlanData] still returns what it returned before. *)
Theorem saveAppState_keeps_quiz_record (st : Storage)
    (updates : gmap string value) :
  not_nullish (member (merged updates st) "exitPlanData") = false →
  ∃ b st',
    saveAppState quota_exceeded updates st = Done b st' ∧
    (∀ k, is_Some (st !! k) → is_Some (st' !! k)) ∧
    st' !! (STORAGE_QUIZ +:+ getStorageSuffix st)
      = st !! (STORAGE_QUIZ +:+ getStorageSuffix st) ∧
    getExitPlanData st' = getExitPlanData st.
Proof.
  intros Hnull. rewrite saveAppState_plan. do 2 eexists. split; [done|].
  split; [intros k; apply store_all_keeps|].
  assert (∀ k, k ∉ [STORAGE_TASKS +:+ getStorageSuffix st;
                    STORAGE_APP_STATE +:+ getStorageSuffix st] →
            (store_all quota_exceeded (planned_writes updates st) st).2 !! k
            = st !! k) as Hframe.
  { intros k Hk. apply store_all_lookup_ne. intros Hin. apply Hk.
    revert Hin. unfold planned_writes. rewrite Hnull.
    destruct (_ && _); cbn [app fmap list_fmap fst];
      rewrite !elem_of_cons, !elem_of_nil; tauto. }
  assert (STORAGE_QUIZ +:+ getStorageSuffix st
          ∉ [STORAGE_TASKS +:+ getStorageSuffix st;
             STORAGE_APP_STATE +:+ getStorageSuffix st]) as Hquiz.
  { rewrite !not_elem_of_cons. split_and!;
      [apply quiz_ne_tasks|apply quiz_ne_app|apply not_elem_of_nil]. }
  split; [by apply Hframe|].
  unfold getExitPlanData, getItem.
  rewrite (getStorageSuffix_ext _ st).
  - by rewrite Hframe.
  - apply Hframe. rewrite !not_elem_of_cons. split_and!;
      [apply not_eq_sym, tasks_ne_current|apply not_eq_sym, app_ne_current
      |apply not_elem_of_nil].
Qed.

End AppStateClaims.

Lemma saveAppState_keeps_quiz_record_witness :
  ∃ b st',
    saveAppState accept_all clear_plan ana_saved_plan = Done b st' ∧
    getExitPlanData st' = sample_plan.
Proof.
  destruct (saveAppState_keeps_quiz_record accept_all ana_saved_plan clear_plan)
    as (b & st' & Hrun & _ & _ & Hplan).
  - vm_compute. reflexivity.
  - exists b, st'. split; [done|]. rewrite Hplan. vm_compute. reflexivity.
Defined.

Lemma app_state_never_fails_witness :
  getAppState garbled_state = defaultAppState ∧
  saveAppState refuse_all ∅ garbled_state = Done false garbled_state.
Proof.
  destruct (app_state_never_fails refuse_all garbled_state ∅)
    as (_ & Hgarbled & _).
  split; [by apply Hgarbled|reflexivity].
Defined.

(** ** The user directory *)

Lemma isValidPassword_length password :
  8 ≤ String.length password → isValidPassword password = true.
Proof.
  intros H. unfold isValidPassword. apply andb_true_intro. split.
  - destruct password; [simpl in H; lia|done].
  - by apply Nat.leb_le.
Qed.

Lemma isValidPhone_digits phone :
  match phone with
  | None => True
  | Some p => p = "" ∨ 10 ≤ digits p ≤ 15
  end →
  isValidPhone phone = true.
Proof.
  destruct phone as [p|]; [|done]. unfold isValidPhone, digits.
  intros [->|[H1 H2]]; [done|].
  destruct (_ || _); [done|].
  apply andb_true_intro. split; by apply Nat.leb_le.
Qed.

Lemma same_key e1 e2 :
  same_up_to_case_and_padding e1 e2 →
  trim (toLowerCase e2) = trim (toLowerCase e1).
Proof.
  intros (l & c & r & -> & Hl & Hr & Hc).
  rewrite !toLowerCase_app, Hc.
  rewrite (toLowerCase_whitespace l), (toLowerCase_whitespace r) by done.
  by apply trim_padding.
Qed.

Lemma userRecord_prop key password name phone address occupation now :
  prop (Some (userRecord key password name phone address occupation now)) "name"
    = Return (Some (JStr (str_or (Some (trim (str_or name "User"))) "User"))) ∧
  prop (Some (userRecord key password name phone address occupation now)) "phone"
    = Return (Some (JStr (trim (str_or phone "")))) ∧
  prop (Some (userRecord key password name phone address occupation now)) "address"
    = Return (Some (JStr (trim (str_or address "")))) ∧
  prop (Some (userRecord key password name phone address occupation now)) "occupation"
    = Return (Some (JStr (trim (str_or occupation "")))) ∧
  prop (Some (userRecord key password name phone address occupation now)) "registeredAt"
    = Return (Some (JStr now)).
Proof. unfold userRecord, prop. by repeat split. Qed.

Lemma registeredSession_literal key name phone address occupation :
  omap id (object
    [ ("email", Some (JStr key));
      ("name", Some (JStr (str_or (Some (trim (str_or name "User"))) "User")));
      ("phone", Some (JStr (trim (str_or phone ""))));
      ("address", Some (JStr (trim (str_or address ""))));
      ("occupation", Some (JStr (trim (str_or occupation ""))));
      ("isLoggedIn", Some (JBool true)) ])
  = registeredSession key name phone address occupation.
Proof.
  unfold object, registeredSession. cbn [list_to_map foldr uncurry fst snd].
  repeat (erewrite omap_insert_Some by reflexivity). by rewrite omap_empty.
Qed.

Lemma getUsers_stored (st : Storage) users :
  st !! STORAGE_USERS = Some (TJson users) → getUsers st = users.
Proof. intros H. unfold getUsers, getItem. by rewrite H. Qed.

Lemma getCurrentUser_stored (st : Storage) session :
  st !! STORAGE_CURRENT = Some (TJson (JObj session)) →
  session !! "isLoggedIn" = Some (JBool true) →
  getCurrentUser st = JObj session.
Proof.
  intros H Hin. unfold getCurrentUser, getItem. rewrite H.
  cbn [parse_or JSON_parse exc_bind truthy prop]. by rewrite Hin.
Qed.

Section Directory.
Context (quota_exceeded : Storage → string → text → bool).

(** The run of [register] on a free, pattern-checked address. *)
(** The run of [register] on valid fields and a free key, when the
    browser accepts the write of the directory and then that of the
    session. *)
Lemma register_accepted (now email password : string)
    (name phone address occupation : option string)
    (st : Storage) (users : gmap string json) :
  let key := trim (toLowerCase email) in
  let st1 :=
    <[STORAGE_USERS :=
        TJson (JObj (<[key := userRecord key password name phone address
                                occupation now]> users))]> st in
  isValidEmail email = true →
  8 ≤ String.length password →
  match phone with
  | None => True
  | Some p => p = "" ∨ 10 ≤ digits p ≤ 15
  end →
  getUsers st = JObj users →
  users !! key = None →
  (∀ t, quota_exceeded st STORAGE_USERS t = false) →
  (∀ t, quota_exceeded st1 STORAGE_CURRENT t = false) →
  register quota_exceeded now email password name phone address occupation st
  = Done success
      (<[STORAGE_CURRENT :=
           TJson (JObj (registeredSession key name phone address occupation))]>
       st1).
Proof.
  intros key st1 Hemail Hpw Hphone Husers Hfree Hdir Hses.
  destruct (valid_key_not_inherited email Hemail) as [Hproto Hproto'].
  fold key in Hproto, Hproto'.
  destruct (userRecord_prop key password name phone address occupation now)
    as (Hn & Hp & Ha & Ho & Hat).
  unfold register. fold key.
  rewrite Hemail, (isValidPassword_length _ Hpw),
    (isValidPhone_digits _ Hphone).
  js_run. rewrite Husers.
  unfold index at 1. rewrite Hfree, Hproto. js_run.
  unfold assign. rewrite Hproto'. js_run.
  unfold saveUsers, setItem at 1. rewrite Hdir. js_run.
  unfold index. rewrite lookup_insert_eq. js_run.
  rewrite Hn, Hp, Ha, Ho. js_run.
  unfold setItem. fold st1. rewrite Hses. unfold JSON_stringify_object.
  by rewrite registeredSession_literal.
Qed.

Lemma register_run (now email password : string)
    (name phone address occupation : option string)
    (st : Storage) (users : gmap string json) :
  let key := trim (toLowerCase email) in
  isValidEmail email = true →
  8 ≤ String.length password →
  match phone with
  | None => True
  | Some p => p = "" ∨ 10 ≤ digits p ≤ 15
  end →
  getUsers st = JObj users →
  users !! key = None →
  (∀ s k t, quota_exceeded s k t = false) →
  register quota_exceeded now email password name phone address occupation st
  = Done success
      (<[STORAGE_CURRENT :=
           TJson (JObj (registeredSession key name phone address occupation))]>
       (<[STORAGE_USERS :=
            TJson (JObj (<[key := userRecord key password name phone address
                                    occupation now]> users))]>
        st)).
Proof.
  intros key Hemail Hpw Hphone Husers Hfree Hquota.
  by apply register_accepted.
Qed.

(** C6: when the directory holds a record for an address, [register]
    with an address that differs from it only in the case of letters or
    in leading and trailing white space fails with the duplicate-email
    error, whatever the password and the other fields, and writes
    nothing. *)
Theorem register_duplicate (now e1 e2 password : string)
    (name phone address occupation : option string) (st : Storage) :
  registered st e1 →
  same_up_to_case_and_padding e1 e2 →
  register quota_exceeded now e2 password name phone address occupation st
    = Done (failure "An account with this email already exists.") st.
Proof.
  intros (users & record & Husers & Hrecord & Htruthy) Hsame.
  unfold register. rewrite (same_key _ _ Hsame). js_run.
  rewrite Husers. unfold index. rewrite Hrecord. js_run.
  by rewrite Htruthy.
Qed.

(** A successful registration makes the address [registered]. *)
Lemma register_registers (now email password : string)
    (name phone address occupation : option string)
    (st : Storage) (users : gmap string json) :
  isValidEmail email = true →
  8 ≤ String.length password →
  match phone with
  | None => True
  | Some p => p = "" ∨ 10 ≤ digits p ≤ 15
  end →
  getUsers st = JObj users →
  users !! trim (toLowerCase email) = None →
  (∀ s k t, quota_exceeded s k t = false) →
  ∃ st',
    register quota_exceeded now email password name phone address occupation st
      = Done success st' ∧
    registered st' email.
Proof.
  intros Hemail Hpw Hphone Husers Hfree Hquota.
  eexists. split; [by apply register_run|].
  do 2 eexists. split.
  { apply getUsers_stored.
    rewrite lookup_insert_ne by done. by rewrite lookup_insert_eq. }
  split; [apply lookup_insert_eq|reflexivity].
Qed.

(** Whatever the directory holds: a new key that passes the pattern check
    and under which another record is filed gets the email-taken error,
    and nothing is written. *)
Lemma updateUserProfile_email_taken_checked (updates : ProfileUpdates)
    (st : Storage) (session users : gmap string json)
    (current_email : string) (other : json) :
  let currentKey := trim (toLowerCase current_email) in
  let newEmail :=
    trim (toLowerCase (str_or (u_email updates) current_email)) in
  getCurrentUser st = JObj session →
  session !! "email" = Some (JStr current_email) →
  getUsers st = JObj users →
  newEmail ≠ currentKey →
  isValidEmail newEmail = true →
  users !! newEmail = Some other →
  truthy other = true →
  updateUserProfile quota_exceeded updates st
    = Done (failure "This email is already taken by another account.") st.
Proof.
  intros currentKey newEmail Hcurrent Hemail Husers Hne Hvalid Hother Htruthy.
  subst currentKey newEmail. run_to_new_key Hcurrent Husers Hemail Hne.
  rewrite Hvalid. js_run.
  unfold index. rewrite Hother. js_run. by rewrite Htruthy.
Qed.

(** In a directory whose keys all pass the pattern check, as the program
    files them, a taken key needs no check of its own. *)
Lemma updateUserProfile_email_taken_valid_keys (updates : ProfileUpdates)
    (st : Storage) (session users : gmap string json)
    (current_email : string) (other : json) :
  let currentKey := trim (toLowerCase current_email) in
  let newEmail :=
    trim (toLowerCase (str_or (u_email updates) current_email)) in
  getCurrentUser st = JObj session →
  session !! "email" = Some (JStr current_email) →
  getUsers st = JObj users →
  keys_valid users →
  newEmail ≠ currentKey →
  users !! newEmail = Some other →
  truthy other = true →
  updateUserProfile quota_exceeded updates st
    = Done (failure "This email is already taken by another account.") st.
Proof.
  intros currentKey newEmail Hcurrent Hemail Husers Hkeys Hne Hother Htruthy.
  subst currentKey newEmail. run_to_new_key Hcurrent Husers Hemail Hne.
  rewrite (Hkeys _ _ Hother). js_run.
  unfold index. rewrite Hother. js_run. by rewrite Htruthy.
Qed.

(** A new key that fails the pattern check is refused before the directory
    is consulted. *)
Lemma updateUserProfile_invalid_email (updates : ProfileUpdates)
    (st : Storage) (session : gmap string json) (current_email : string) :
  let currentKey := trim (toLowerCase current_email) in
  let newEmail :=
    trim (toLowerCase (str_or (u_email updates) current_email)) in
  getCurrentUser st = JObj session →
  session !! "email" = Some (JStr current_email) →
  newEmail ≠ currentKey →
  isValidEmail newEmail = false →
  updateUserProfile quota_exceeded updates st
    = Done (failure "Please enter a valid email address.") st.
Proof.
  intros currentKey newEmail Hcurrent Hemail Hne Hvalid.
  subst currentKey newEmail.
  unfold updateUserProfile. js_run. rewrite Hcurrent.
  cbn [truthy]. js_run. unfold prop. rewrite Hemail.
  js_run. unfold as_string. js_run.
  apply String.eqb_neq in Hne. rewrite Hne. js_run.
  by rewrite Hvalid.
Qed.

End Directory.

Lemma register_duplicate_witness :
  register accept_all "2026-11-03T08:00:00.000Z" emile_typed
    "another password" None None None None emile_registered
  = Done (failure "An account with this email already exists.")
      emile_registered.
Proof.
  apply (register_duplicate accept_all _ emile).
  - eexists _, _. split; [by vm_compute|]. split; by vm_compute.
  - exists (String "160" ""), (String "201" "MILE@EXAMPLE.COM"), " ".
    by split_and!.
Defined.

(** The pattern check comes before the lookup.  In a directory that no
    function of the program writes, with a record under the key [nick],
    the update to [Nick] gets the invalid-email error, not the
    email-taken one. *)
Lemma updateUserProfile_taken_key_not_an_address :
  getCurrentUser ana_and_nick
    = JObj (registeredSession "ana@example.com" (Some "Ana") None None None) ∧
  getUsers ana_and_nick = JObj nick_directory ∧
  trim (toLowerCase "Nick") = "nick" ∧
  nick_directory !! "nick"
    = Some (userRecord "nick" "battery staple" (Some "Nick") None None None
              "2026-11-02T10:00:00.000Z") ∧
  updateUserProfile accept_all rename_to_nick ana_and_nick
    = Done (failure "Please enter a valid email address.") ana_and_nick.
Proof. repeat split; vm_compute; reflexivity. Qed.

(** ** The local tenant tip *)

(** The function answers [null] exactly when the occupation is not student
    and the city names neither Ottawa nor Ontario. *)
Lemma getLocalTenantTip_None occupation cityProvince :
  getLocalTenantTip occupation cityProvince = None ↔
  recognized_occupation occupation = false ∧
  includes (toLowerCase (str_or cityProvince "")) "ottawa" = false ∧
  includes (toLowerCase (str_or cityProvince "")) "ontario" = false.
Proof.
  unfold getLocalTenantTip, recognized_occupation.
  destruct (String.eqb _ "student").
  - split; [|by intros [? _]].
    destruct (includes _ "ottawa"); [done|].
    destruct (_ || _); [done|]. by destruct (_ || _).
  - destruct (includes _ "ottawa"); [by split; [|intros (_ & ? & _)]|].
    destruct (includes _ "ontario"); [by split; [|intros (_ & _ & ?)]|].
    done.
Qed.

(** C9: for a student in [Ottawa, ON] the function returns the tip for
    students in Ottawa; when neither the occupation nor the city is one it
    knows, it returns [null]. *)
Theorem getLocalTenantTip_cases :
  getLocalTenantTip (Some "student") (Some "Ottawa, ON")
    = Some ottawa_student_tip ∧
  ∀ occupation cityProvince,
    recognized_occupation occupation = false →
    recognized_city cityProvince = false →
    getLocalTenantTip occupation cityProvince = None.
Proof.
  split; [reflexivity|].
  intros occupation cityProvince Hocc Hcity. apply getLocalTenantTip_None.
  unfold recognized_city in Hcity. cbv zeta in Hcity.
  repeat (apply orb_false_elim in Hcity as [Hcity ?]). done.
Qed.

Lemma getLocalTenantTip_cases_witness :
  getLocalTenantTip (Some "Nurse") (Some "Vancouver, BC") = None.
Proof. apply (proj2 getLocalTenantTip_cases); reflexivity. Defined.

(** ** The directory only holds keys that pass the pattern check *)

Lemma directory_ok_empty : directory_ok ∅.
Proof. exists ∅. split; [done|]. apply map_Forall_empty. Qed.

Lemma directory_ok_other k t (st : Storage) :
  k ≠ STORAGE_USERS → directory_ok st → directory_ok (<[k := t]> st).
Proof.
  intros Hk (users & Hu & Hv). exists users. split; [|done].
  rewrite <-Hu. apply getUsers_ext. by rewrite lookup_insert_ne.
Qed.

Lemma directory_ok_delete k (st : Storage) :
  k ≠ STORAGE_USERS → directory_ok st → directory_ok (delete k st).
Proof.
  intros Hk (users & Hu & Hv). exists users. split; [|done].
  rewrite <-Hu. apply getUsers_ext. by rewrite lookup_delete_ne.
Qed.

Lemma directory_ok_users users (st : Storage) :
  keys_valid users →
  directory_ok (<[STORAGE_USERS := TJson (JObj users)]> st).
Proof.
  intros Hv. exists users. split; [|done].
  apply getUsers_stored, lookup_insert_eq.
Qed.

Lemma keys_valid_insert k v users :
  isValidEmail k = true → keys_valid users → keys_valid (<[k := v]> users).
Proof. intros Hk Hv. by apply map_Forall_insert_2. Qed.

Lemma keys_valid_delete k users :
  keys_valid users → keys_valid (delete k users).
Proof. intros Hv. by apply map_Forall_delete. Qed.

Lemma stateless_ret {A} (a : A) : stateless (ret a).
Proof. intros st. right. right. by exists a. Qed.

Lemma stateless_throw {A} : stateless (@throw A).
Proof. intros st. right. by left. Qed.

Lemma stateless_unmodelled {A} : stateless (@unmodelled A).
Proof. intros st. by left. Qed.

Lemma stateless_read {A} (f : Storage → A) : stateless (read f).
Proof. intros st. right. right. by exists (f st). Qed.

Lemma stateless_lift {A} (e : exc A) : stateless (lift e).
Proof. destruct e; [apply stateless_ret|apply stateless_throw]. Qed.

Lemma stateless_index o key : stateless (index o key).
Proof.
  unfold index. destruct o; try apply stateless_unmodelled;
    [apply stateless_throw|].
  destruct (_ !! _); [apply stateless_ret|].
  destruct (bool_decide _); [apply stateless_unmodelled|apply stateless_ret].
Qed.

Lemma stateless_assign o key v : stateless (assign o key v).
Proof.
  unfold assign. destruct o; try apply stateless_unmodelled;
    [apply stateless_throw|].
  destruct (bool_decide _); [apply stateless_unmodelled|apply stateless_ret].
Qed.

Lemma stateless_delete_member o key : stateless (delete_member o key).
Proof.
  unfold delete_member. destruct o; try apply stateless_unmodelled;
    [apply stateless_throw|apply stateless_ret].
Qed.

Lemma stateless_set_member u name v : stateless (set_member u name v).
Proof.
  unfold set_member. destruct u as [[]|];
    first [apply stateless_throw|apply stateless_ret|apply stateless_unmodelled].
Qed.

Lemma stateless_set_if_given field name f user :
  stateless (set_if_given field name f user).
Proof.
  unfold set_if_given. destruct field;
    [apply stateless_set_member|apply stateless_ret].
Qed.

(** After a stateless step the run goes on from the same storage, if it
    goes on. *)
Lemma after_stateless {A B} (P : Storage → Prop) (m : js A) (k : A → js B) st :
  stateless m → P ∅ → P st →
  (∀ a, m st = Done a st → P (storage_after (k a st))) →
  P (storage_after (bind m k st)).
Proof.
  intros Hm Hempty Hst Hk. unfold bind.
  destruct (Hm st) as [->|[->|[a Ha]]]; [done|done|].
  rewrite Ha. by apply Hk.
Qed.

Lemma index_Done o key v (st st' : Storage) :
  index o key st = Done v st' →
  ∃ m, o = JObj m ∧ v = m !! key.
Proof.
  unfold index. destruct o; try done. intros H. eexists. split; [done|].
  destruct (_ !! _); [by injection H as <- _|].
  destruct (bool_decide _); [done|]. by injection H as <- _.
Qed.

Lemma assign_Done o key v o' (st st' : Storage) :
  assign o key v st = Done o' st' →
  ∃ m, o = JObj m ∧ o' = JObj (<[key := v]> m).
Proof.
  unfold assign. destruct o; try done. intros H. eexists. split; [done|].
  destruct (bool_decide _); [done|]. by injection H as <- _.
Qed.

Lemma delete_member_Done o key o' (st st' : Storage) :
  delete_member o key st = Done o' st' →
  ∃ m, o = JObj m ∧ o' = JObj (delete key m).
Proof.
  unfold delete_member. destruct o; try done. intros H. eexists.
  split; [done|]. by injection H as <- _.
Qed.

Lemma set_member_Done u name v u' (st st' : Storage) :
  set_member u name v st = Done u' st' → is_Some u ∧ is_Some u'.
Proof.
  unfold set_member. destruct u as [[]|]; try done;
    intros [= <- _]; by split.
Qed.

Lemma set_if_given_Done field name f u u' (st st' : Storage) :
  set_if_given field name f u st = Done u' st' → derived_from u u'.
Proof.
  unfold set_if_given, derived_from. destruct field.
  - by intros [? _]%set_member_Done.
  - by intros [= <- _].
Qed.

Section DirectoryInvariant.
Context (quota_exceeded : Storage → string → text → bool).

Lemma setItem_keeps_other k t st :
  k ≠ STORAGE_USERS → directory_ok st →
  directory_ok (storage_after (setItem quota_exceeded k t st)).
Proof.
  intros Hk Hst. unfold setItem. destruct (quota_exceeded st k t); [done|].
  by apply directory_ok_other.
Qed.

Lemma setItem_last_keeps {A} k t (r : A) st :
  k ≠ STORAGE_USERS → directory_ok st →
  directory_ok
    (storage_after (bind (setItem quota_exceeded k t) (λ _, ret r) st)).
Proof.
  intros Hk Hst. unfold bind, setItem.
  destruct (quota_exceeded st k t); [done|]. by apply directory_ok_other.
Qed.

Lemma register_keeps_directory now email password name phone address
    occupation st :
  directory_ok st →
  directory_ok
    (storage_after
       (register quota_exceeded now email password name phone address
          occupation st)).
Proof.
  intros Hst. pose proof directory_ok_empty as Hempty.
  destruct Hst as (users & Husers & Hvalid).
  assert (directory_ok st) as Hst by (by exists users).
  unfold register.
  apply after_stateless; [apply stateless_read|done..|]. intros ? [= <-].
  rewrite Husers.
  apply after_stateless; [apply stateless_index|done..|]. intros existing _.
  destruct (truthy_v existing); [done|].
  destruct (isValidEmail email) eqn:Hemail; [|done].
  destruct (isValidPassword password); [|done].
  destruct (isValidPhone phone); [|done]. cbn [negb].
  apply after_stateless; [apply stateless_assign|done..|].
  intros users' (m & [= <-] & ->)%assign_Done.
  unfold bind at 1, saveUsers, setItem at 1.
  destruct (quota_exceeded st _ _); [done|].
  set (st1 := <[STORAGE_USERS := _]> st).
  assert (directory_ok st1) as Hst1.
  { apply directory_ok_users, keys_valid_insert; [|done].
    by apply valid_key in Hemail as (_ & ? & _). }
  apply after_stateless; [apply stateless_index|done..|]. intros userData _.
  do 4 (apply after_stateless; [apply stateless_lift|done..|]; intros ? _).
  by apply setItem_last_keeps.
Qed.

Lemma login_keeps_directory email password st :
  directory_ok st →
  directory_ok (storage_after (login quota_exceeded email password st)).
Proof.
  intros Hst. pose proof directory_ok_empty as Hempty. unfold login.
  apply after_stateless; [apply stateless_read|done..|]. intros users _.
  apply after_stateless; [apply stateless_index|done..|]. intros u _.
  destruct (truthy_v u); [|done]. cbn [negb].
  apply after_stateless; [apply stateless_lift|done..|]. intros pw _.
  destruct (is_string pw password); [|done]. cbn [negb].
  do 4 (apply after_stateless; [apply stateless_lift|done..|]; intros ? _).
  by apply setItem_last_keeps.
Qed.

Lemma logout_keeps_directory st :
  directory_ok st → directory_ok (storage_after (logout st)).
Proof. intros Hst. by apply directory_ok_delete. Qed.

Lemma saveAppState_keeps_directory updates st :
  directory_ok st →
  directory_ok (storage_after (saveAppState quota_exceeded updates st)).
Proof.
  intros (users & Hu & Hv). exists users. split; [|done]. rewrite <-Hu.
  apply getUsers_ext. rewrite saveAppState_plan. cbn [storage_after].
  apply store_all_lookup_ne. intros H%planned_writes_keys.
  by apply state_keys_not_users in H.
Qed.

Lemma saveTasks_keeps_directory tasksObj st :
  directory_ok st →
  directory_ok (storage_after (saveTasks quota_exceeded tasksObj st)).
Proof.
  intros Hst. unfold saveTasks, try_catch, bind, read, ret, setItem.
  destruct (quota_exceeded st _ _); [done|].
  apply directory_ok_other; [apply tasks_ne_users|done].
Qed.

Lemma applyProfile_keeps_directory updates newEmail users st :
  directory_ok st → keys_valid users →
  directory_ok
    (storage_after
       (applyProfile quota_exceeded updates newEmail (JObj users) st)).
Proof.
  intros Hst Hvalid. pose proof directory_ok_empty as Hempty.
  unfold applyProfile.
  apply after_stateless; [apply stateless_index|done..|].
  intros user0 (m & [= <-] & Huser0)%index_Done.
  apply after_stateless; [apply stateless_set_if_given|done..|].
  intros user1 Huser1%set_if_given_Done.
  destruct (isValidPhone _); [|done]. cbn [negb].
  apply after_stateless; [apply stateless_set_if_given|done..|].
  intros user2 Huser2%set_if_given_Done.
  apply after_stateless; [apply stateless_set_if_given|done..|].
  intros user3 Huser3%set_if_given_Done.
  apply after_stateless; [apply stateless_set_if_given|done..|].
  intros user4 Huser4%set_if_given_Done.
  apply after_stateless;
    [destruct (u_password updates);
       [destruct (_ && _)|];
       first [apply stateless_set_member|apply stateless_ret]
    |done..|].
  intros user5 Huser5.
  assert (derived_from user4 user5) as Huser5'.
  { unfold derived_from. destruct (u_password updates) as [p|].
    - destruct (_ && _).
      + by apply set_member_Done in Huser5 as [? _].
      + by injection Huser5 as ->.
    - by injection Huser5 as ->. }
  apply after_stateless; [apply stateless_set_member|done..|].
  intros user6 [Huser56 [u ->]]%set_member_Done.
  assert (isValidEmail newEmail = true) as Hnew.
  { unfold derived_from in *.
    destruct (Huser1 (Huser2 (Huser3 (Huser4 (Huser5' Huser56))))) as [v Hv].
    rewrite Huser0 in Hv. by eapply Hvalid. }
  unfold bind at 1, saveUsers, setItem at 1.
  destruct (quota_exceeded st _ _); [done|].
  set (st1 := <[STORAGE_USERS := _]> st).
  assert (directory_ok st1) as Hst1.
  { by apply directory_ok_users, keys_valid_insert. }
  do 4 (apply after_stateless; [apply stateless_lift|done..|]; intros ? _).
  by apply setItem_last_keeps.
Qed.

Lemma updateUserProfile_keeps_directory updates st :
  directory_ok st →
  directory_ok (storage_after (updateUserProfile quota_exceeded updates st)).
Proof.
  intros Hst. pose proof directory_ok_empty as Hempty.
  destruct Hst as (users & Husers & Hvalid).
  assert (directory_ok st) as Hst by (by exists users).
  unfold updateUserProfile.
  apply after_stateless; [apply stateless_read|done..|]. intros current _.
  destruct (truthy current); [|done]. cbn [negb].
  apply after_stateless; [apply stateless_read|done..|]. intros ? [= <-].
  rewrite Husers.
  apply after_stateless; [apply stateless_lift|done..|]. intros c_email _.
  apply after_stateless; [apply stateless_lift|done..|]. intros c_string _.
  destruct (String.eqb _ _); cbn [negb];
    [by apply applyProfile_keeps_directory|].
  destruct (isValidEmail _) eqn:Hnew; [|done]. cbn [negb].
  apply after_stateless; [apply stateless_index|done..|]. intros taken _.
  destruct (truthy_v taken); [done|].
  apply after_stateless; [apply stateless_index|done..|]. intros old _.
  apply after_stateless; [apply stateless_assign|done..|].
  intros users1 (m & [= <-] & ->)%assign_Done.
  apply after_stateless; [apply stateless_delete_member|done..|].
  intros users2 (m & [= <-] & ->)%delete_member_Done.
  apply applyProfile_keeps_directory; [done|].
  by apply keys_valid_delete, keys_valid_insert.
Qed.

End DirectoryInvariant.


(** ** The session is filed under an address that passes the pattern check *)

Lemma session_ok_empty : session_ok ∅.
Proof. by left. Qed.

Lemma session_ok_other k t (st : Storage) :
  k ≠ STORAGE_CURRENT → session_ok st → session_ok (<[k := t]> st).
Proof.
  intros Hk Hst. unfold session_ok.
  rewrite (getCurrentUser_ext (<[k := t]> st) st); [done|].
  by rewrite lookup_insert_ne.
Qed.

Lemma session_ok_removed (st : Storage) : session_ok (delete STORAGE_CURRENT st).
Proof.
  left. unfold getCurrentUser, getItem. by rewrite lookup_delete_eq.
Qed.

Lemma session_ok_written key name phone address occupation (st : Storage) :
  isValidEmail key = true →
  session_ok
    (<[STORAGE_CURRENT := sessionText key name phone address occupation]> st).
Proof.
  intros Hkey. right. eexists _, key. split; [|split; [|done]].
  - apply getCurrentUser_stored; [apply lookup_insert_eq|].
    rewrite lookup_omap. unfold object. cbn [list_to_map foldr uncurry fst snd].
    by repeat (rewrite lookup_insert_ne by done); rewrite lookup_insert_eq.
  - rewrite lookup_omap. unfold object. cbn [list_to_map foldr uncurry fst snd].
    by rewrite lookup_insert_eq.
Qed.

Section SessionInvariant.
Context (quota_exceeded : Storage → string → text → bool).

Lemma session_written_last {A} key name phone address occupation (r : A) st :
  isValidEmail key = true → session_ok st →
  session_ok
    (storage_after
       (bind (setItem quota_exceeded STORAGE_CURRENT
                (sessionText key name phone address occupation))
             (λ _, ret r) st)).
Proof.
  intros Hkey Hst. unfold bind, setItem.
  destruct (quota_exceeded st _ _); [done|]. by apply session_ok_written.
Qed.

Lemma register_keeps_session now email password name phone address
    occupation st :
  session_ok st →
  session_ok
    (storage_after
       (register quota_exceeded now email password name phone address
          occupation st)).
Proof.
  intros Hst. pose proof session_ok_empty as Hempty. unfold register.
  apply after_stateless; [apply stateless_read|done..|]. intros users _.
  apply after_stateless; [apply stateless_index|done..|]. intros existing _.
  destruct (truthy_v existing); [done|].
  destruct (isValidEmail email) eqn:Hemail; [|done].
  destruct (isValidPassword password); [|done].
  destruct (isValidPhone phone); [|done]. cbn [negb].
  apply after_stateless; [apply stateless_assign|done..|]. intros users' _.
  unfold bind at 1, saveUsers, setItem at 1.
  destruct (quota_exceeded st _ _); [done|].
  set (st1 := <[STORAGE_USERS := _]> st).
  assert (session_ok st1) as Hst1 by (by apply session_ok_other).
  apply after_stateless; [apply stateless_index|done..|]. intros userData _.
  do 4 (apply after_stateless; [apply stateless_lift|done..|]; intros ? _).
  apply session_written_last; [|done].
  by apply valid_key in Hemail as (_ & ? & _).
Qed.

Lemma login_keeps_session email password st :
  directory_ok st → session_ok st →
  session_ok (storage_after (login quota_exceeded email password st)).
Proof.
  intros (users & Husers & Hkeys) Hst. pose proof session_ok_empty as Hempty.
  unfold login.
  apply after_stateless; [apply stateless_read|done..|]. intros ? [= <-].
  rewrite Husers.
  apply after_stateless; [apply stateless_index|done..|].
  intros u (m & [= <-] & ->)%index_Done.
  destruct (users !! _) as [v|] eqn:Hv; [|done].
  destruct (truthy_v (Some v)); [|done]. cbn [negb].
  apply after_stateless; [apply stateless_lift|done..|]. intros pw _.
  destruct (is_string pw password); [|done]. cbn [negb].
  do 4 (apply after_stateless; [apply stateless_lift|done..|]; intros ? _).
  apply session_written_last; [|done]. by eapply Hkeys.
Qed.

Lemma logout_keeps_session st : session_ok (storage_after (logout st)).
Proof. apply session_ok_removed. Qed.

Lemma saveAppState_keeps_session updates st :
  session_ok st →
  session_ok (storage_after (saveAppState quota_exceeded updates st)).
Proof.
  intros Hst. unfold session_ok.
  destruct (saveAppState_total quota_exceeded updates st) as (b & st' & Hrun).
  rewrite Hrun. cbn [storage_after].
  rewrite (getCurrentUser_ext st' st); [done|].
  by eapply saveAppState_current.
Qed.

Lemma saveTasks_keeps_session tasksObj st :
  session_ok st →
  session_ok (storage_after (saveTasks quota_exceeded tasksObj st)).
Proof.
  intros Hst. unfold saveTasks, try_catch, bind, read, ret, setItem.
  destruct (quota_exceeded st _ _); [done|].
  apply session_ok_other; [apply tasks_ne_current|done].
Qed.

Lemma applyProfile_keeps_session updates newEmail users st :
  keys_valid users → session_ok st →
  session_ok
    (storage_after
       (applyProfile quota_exceeded updates newEmail (JObj users) st)).
Proof.
  intros Hvalid Hst. pose proof session_ok_empty as Hempty.
  unfold applyProfile.
  apply after_stateless; [apply stateless_index|done..|].
  intros user0 (m & [= <-] & Huser0)%index_Done.
  apply after_stateless; [apply stateless_set_if_given|done..|].
  intros user1 Huser1%set_if_given_Done.
  destruct (isValidPhone _); [|done]. cbn [negb].
  apply after_stateless; [apply stateless_set_if_given|done..|].
  intros user2 Huser2%set_if_given_Done.
  apply after_stateless; [apply stateless_set_if_given|done..|].
  intros user3 Huser3%set_if_given_Done.
  apply after_stateless; [apply stateless_set_if_given|done..|].
  intros user4 Huser4%set_if_given_Done.
  apply after_stateless;
    [destruct (u_password updates);
       [destruct (_ && _)|];
       first [apply stateless_set_member|apply stateless_ret]
    |done..|].
  intros user5 Huser5.
  assert (derived_from user4 user5) as Huser5'.
  { unfold derived_from. destruct (u_password updates) as [p|].
    - destruct (_ && _).
      + by apply set_member_Done in Huser5 as [? _].
      + by injection Huser5 as ->.
    - by injection Huser5 as ->. }
  apply after_stateless; [apply stateless_set_member|done..|].
  intros user6 [Huser56 [u ->]]%set_member_Done.
  assert (isValidEmail newEmail = true) as Hnew.
  { unfold derived_from in *.
    destruct (Huser1 (Huser2 (Huser3 (Huser4 (Huser5' Huser56))))) as [v Hv].
    rewrite Huser0 in Hv. by eapply Hvalid. }
  unfold bind at 1, saveUsers, setItem at 1.
  destruct (quota_exceeded st _ _); [done|].
  set (st1 := <[STORAGE_USERS := _]> st).
  assert (session_ok st1) as Hst1 by (by apply session_ok_other).
  do 4 (apply after_stateless; [apply stateless_lift|done..|]; intros ? _).
  by apply session_written_last.
Qed.

Lemma updateUserProfile_keeps_session updates st :
  directory_ok st → session_ok st →
  session_ok (storage_after (updateUserProfile quota_exceeded updates st)).
Proof.
  intros (users & Husers & Hvalid) Hst. pose proof session_ok_empty as Hempty.
  unfold updateUserProfile.
  apply after_stateless; [apply stateless_read|done..|]. intros current _.
  destruct (truthy current); [|done]. cbn [negb].
  apply after_stateless; [apply stateless_read|done..|]. intros ? [= <-].
  rewrite Husers.
  apply after_stateless; [apply stateless_lift|done..|]. intros c_email _.
  apply after_stateless; [apply stateless_lift|done..|]. intros c_string _.
  destruct (String.eqb _ _); cbn [negb];
    [by apply applyProfile_keeps_session|].
  destruct (isValidEmail _) eqn:Hnew; [|done]. cbn [negb].
  apply after_stateless; [apply stateless_index|done..|]. intros taken _.
  destruct (truthy_v taken); [done|].
  apply after_stateless; [apply stateless_index|done..|]. intros old _.
  apply after_stateless; [apply stateless_assign|done..|].
  intros users1 (m & [= <-] & ->)%assign_Done.
  apply after_stateless; [apply stateless_delete_member|done..|].
  intros users2 (m & [= <-] & ->)%delete_member_Done.
  apply applyProfile_keeps_session; [|done].
  by apply keys_valid_delete, keys_valid_insert.
Qed.

End SessionInvariant.

(** ** The states the program reaches *)

Lemma ends_storage_after {A} (r : run A) st' : ends r st' → storage_after r = st'.
Proof. by intros [[a ->]| ->]. Qed.

(** Every storage the program reaches holds a directory whose keys pass
    the pattern check and, if any, a session under such an address. *)
Lemma reachable_well_formed quota_exceeded st :
  reachable quota_exceeded st → directory_ok st ∧ session_ok st.
Proof.
  induction 1 as [|st st' now email password name phone address occupation _ IH He
                  |st st' email password _ IH He
                  |st st' updates _ IH He
                  |st st' _ IH He
                  |st st' updates _ IH He
                  |st st' tasksObj _ IH He];
    [split; [apply directory_ok_empty|apply session_ok_empty]|..];
    destruct IH as [Hdir Hses];
    rewrite <-(ends_storage_after _ _ He); split.
  - by apply register_keeps_directory.
  - by apply register_keeps_session.
  - by apply login_keeps_directory.
  - by apply login_keeps_session.
  - by apply updateUserProfile_keeps_directory.
  - by apply updateUserProfile_keeps_session.
  - by apply logout_keeps_directory.
  - apply logout_keeps_session.
  - by apply saveAppState_keeps_directory.
  - by apply saveAppState_keeps_session.
  - by apply saveTasks_keeps_directory.
  - by apply saveTasks_keeps_session.
Qed.


(** ** The claims on the storages that the program writes *)


Lemma ana_and_ben_reachable : reachable accept_all ana_and_ben.
Proof.
  pose (st1 := storage_after
                 (register accept_all "2026-11-02T09:00:00.000Z"
                    "ana@example.com" "correct horse" (Some "Ana") None None
                    None ∅)).
  pose (st2 := storage_after
                 (register accept_all "2026-11-02T10:00:00.000Z"
                    "ben@example.com" "battery staple" (Some "Ben") None None
                    None st1)).
  apply (reach_login accept_all st2 _ "ana@example.com" "correct horse").
  - apply (reach_register accept_all st1 _ "2026-11-02T10:00:00.000Z"
             "ben@example.com" "battery staple" (Some "Ben") None None None).
    + apply (reach_register accept_all ∅ _ "2026-11-02T09:00:00.000Z"
               "ana@example.com" "correct horse" (Some "Ana") None None None);
        [apply reach_fresh|].
      left. exists success. vm_compute. reflexivity.
    + left. exists success. vm_compute. reflexivity.
  - left. exists success. vm_compute. reflexivity.
Qed.






(** C5: in every storage that the program writes, for a logged-in user,
    an update to a new e-mail whose lowercased, trimmed form is the key of
    another account's record gets the email-taken error, and the storage,
    hence the directory and both records with all their fields, is as it
    was. *)
Theorem updateUserProfile_email_taken quota_exceeded
    (updates : ProfileUpdates) (st : Storage) (session : gmap string json)
    (current_email new : string) :
  reachable quota_exceeded st →
  getCurrentUser st = JObj session →
  session !! "email" = Some (JStr current_email) →
  u_email updates = Some new →
  registered st new →
  trim (toLowerCase new) ≠ trim (toLowerCase current_email) →
  updateUserProfile quota_exceeded updates st
    = Done (failure "This email is already taken by another account.") st ∧
  getUsers
    (storage_after (updateUserProfile quota_exceeded updates st))
    = getUsers st.
Proof.
  intros [(users' & Husers' & Hkeys) _]%reachable_well_formed
    Hcur Hemail Hnew (users & other & Husers & Hother & Htruthy) Hne.
  rewrite Husers in Husers'. injection Husers' as <-.
  assert (new ≠ "") as Hnonempty.
  { intros ->. by pose proof (Hkeys _ _ Hother). }
  assert (str_or (u_email updates) current_email = new) as Hstr.
  { rewrite Hnew. by destruct new. }
  assert (updateUserProfile quota_exceeded updates st
          = Done (failure "This email is already taken by another account.")
              st) as Hrun.
  { eapply updateUserProfile_email_taken_valid_keys; rewrite ?Hstr; eauto. }
  split; [exact Hrun|]. by rewrite Hrun.
Qed.

Lemma updateUserProfile_email_taken_witness :
  updateUserProfile accept_all rename_to_ben ana_and_ben
  = Done (failure "This email is already taken by another account.") ana_and_ben.
Proof.
  eapply (updateUserProfile_email_taken accept_all rename_to_ben ana_and_ben
            _ "ana@example.com" " Ben@Example.com").
  - apply ana_and_ben_reachable.
  - reflexivity.
  - reflexivity.
  - reflexivity.
  - do 2 eexists. split; [reflexivity|]. split; reflexivity.
  - vm_compute. discriminate.
Defined.


(** * Further properties of the code *)

(** ** Validation of the form fields *)







Lemma trimEnd_empty s : trimEnd s = "" → all_whitespace s = true.
Proof.
  induction s as [|c s IH]; [done|]. simpl.
  destruct (trimEnd s); [|done].
  destruct (is_whitespace c); [auto|done].
Qed.

Lemma trimStart_all_whitespace s :
  all_whitespace (trimStart s) = true → all_whitespace s = true.
Proof.
  induction s as [|c s IH]; [done|]. simpl.
  destruct (is_whitespace c) eqn:Hc; [auto|].
  simpl. by rewrite Hc.
Qed.

Lemma trim_empty s : trim s = "" ↔ all_whitespace s = true.
Proof.
  split.
  - intros H. by apply trimStart_all_whitespace, trimEnd_empty.
  - intros H. unfold trim. by rewrite trimStart_whitespace.
Qed.

(** X5: a phone is accepted exactly when it is absent or blank, or holds
    between ten and fifteen digits, whatever stands between the digits. *)
Theorem isValidPhone_iff phone :
  isValidPhone phone = true ↔
  match phone with
  | None => True
  | Some p => all_whitespace p = true ∨ 10 ≤ digits p ≤ 15
  end.
Proof.
  destruct phone as [p|]; [|done]. unfold isValidPhone, digits.
  destruct (String.eqb_spec p "") as [->|Hp]; [simpl; split; [by left|done]|].
  destruct (String.eqb_spec (trim p) "") as [Ht|Ht]; cbn [orb].
  - apply trim_empty in Ht. split; [by left|done].
  - rewrite andb_true_iff, !Nat.leb_le. split; [by right|].
    intros [Hw|H]; [|done]. by apply trim_empty in Hw.
Qed.

Lemma string_exists_not_forall q s :
  string_exists q s = true → string_forall (λ c, negb (q c)) s = false.
Proof.
  induction s as [|c s IH]; simpl; [done|].
  destruct (q c); simpl; [done|auto].
Qed.

(** ** The readers *)



Lemma sanitize_id s :
  string_forall (λ c, negb (unsafe_char c)) s = true → sanitize s = s.
Proof.
  unfold sanitize. induction s as [|c s IH]; [done|]. cbn [string_forall].
  intros [Hc Hs]%andb_prop. cbn [replace_class].
  apply negb_true_iff in Hc. by rewrite Hc, IH.
Qed.

(** X7: two sessions with different addresses, both made of the
    characters [[A-Za-z0-9@._-]], have different suffixes. *)
Theorem getStorageSuffix_distinct (st1 st2 : Storage)
    (session1 session2 : gmap string json) (e1 e2 : string) :
  getCurrentUser st1 = JObj session1 →
  session1 !! "email" = Some (JStr e1) →
  getCurrentUser st2 = JObj session2 →
  session2 !! "email" = Some (JStr e2) →
  string_forall (λ c, negb (unsafe_char c)) e1 = true →
  string_forall (λ c, negb (unsafe_char c)) e2 = true →
  e1 ≠ e2 →
  getStorageSuffix st1 ≠ getStorageSuffix st2.
Proof.
  intros Hc1 He1 Hc2 He2 Hs1 Hs2 Hne.
  rewrite !getStorageSuffix_eq, Hc1, Hc2, He1, He2.
  cbn [truthy ToString exc_bind catch]. rewrite !sanitize_id by done.
  destruct e1 as [|c1 e1], e2 as [|c2 e2]; try done.
  replace (String.eqb (String c1 e1) "") with false by done.
  replace (String.eqb (String c2 e2) "") with false by done.
  cbn [negb]. rewrite !app_cons, !app_empty_l. intros [= -> ->]. done.
Qed.

(** The suffix of Ana's session and the suffix of Ben's. *)
Lemma getStorageSuffix_distinct_witness :
  String.eqb
    (getStorageSuffix ana_registered)
    (getStorageSuffix
       (<[STORAGE_CURRENT :=
            TJson (JObj (registeredSession "ben@example.com" (Some "Ben")
                           None None None))]> ana_registered))
  = false.
Proof.
  apply String.eqb_neq.
  eapply (getStorageSuffix_distinct ana_registered _ _ _ "ana@example.com"
            "ben@example.com"); try reflexivity.
  discriminate.
Defined.

(** Whatever the storage holds, [getTasks] returns an object or an array,
    never [null] and never a primitive value. *)
Lemma getTasks_object (st : Storage) :
  typeof_object (Some (getTasks st)) && not_nullish (Some (getTasks st)) = true.
Proof.
  unfold getTasks.
  destruct (parse_or _ _) as [obj|]; cbn [exc_bind catch]; [|done].
  by destruct (typeof_object (Some obj) && not_nullish (Some obj)) eqn:H.
Qed.

(** X8: once the combined record of the session is an object that holds
    the three members, [getAppState] returns that record as it is stored,
    whatever the standalone quiz and task records hold. *)
Theorem getAppState_combined_record (st : Storage) (m : gmap string json) :
  st !! (STORAGE_APP_STATE +:+ getStorageSuffix st) = Some (TJson (JObj m)) →
  (∀ name, name ∈ state_fields → is_Some (m !! name)) →
  getAppState st = m.
Proof.
  intros Hraw Hm. unfold getAppState, getItem. rewrite Hraw.
  cbn [parse_or JSON_parse exc_bind prop catch own_enumerable].
  apply map_eq. intros name. rewrite lookup_union.
  destruct (m !! name) as [v|] eqn:Hv; [by rewrite union_Some_l|].
  rewrite (left_id None _).
  assert (name ∉ state_fields) as Hname.
  { intros [v Hv']%Hm. congruence. }
  unfold state_fields in Hname. rewrite !not_elem_of_cons in Hname.
  destruct Hname as (? & ? & ? & _).
  by rewrite !lookup_insert_ne.
Qed.

Lemma getAppState_combined_record_witness :
  getAppState after_first_plan
  = {[ "isPlanGenerated" := JBool false;
       "exitPlanData" := sample_plan;
       "completedTasks" := JObj ∅ ]}.
Proof.
  apply getAppState_combined_record.
  - reflexivity.
  - intros name. unfold state_fields. rewrite !elem_of_cons, elem_of_nil.
    intros [->|[->|[->|[]]]]; by eexists.
Defined.

(** ** The task tracker *)

Section TaskTracker.
Context (quota_exceeded : Storage → string → text → bool).

Lemma saveTasks_run tasksObj st :
  saveTasks quota_exceeded tasksObj st =
    if quota_exceeded st (STORAGE_TASKS +:+ getStorageSuffix st)
         (JSON_stringify tasksObj)
    then Done false st
    else Done true (<[STORAGE_TASKS +:+ getStorageSuffix st
                      := JSON_stringify tasksObj]> st).
Proof.
  unfold saveTasks, try_catch, bind, read, ret, setItem.
  by destruct (quota_exceeded st _ _).
Qed.

Lemma saveTasks_suffix tasksObj st :
  getStorageSuffix (storage_after (saveTasks quota_exceeded tasksObj st))
  = getStorageSuffix st.
Proof.
  rewrite saveTasks_run. destruct (quota_exceeded st _ _); [done|].
  apply getStorageSuffix_ext, lookup_insert_ne, tasks_ne_current.
Qed.

Lemma saveTasks_frame tasksObj st k :
  k ≠ STORAGE_TASKS +:+ getStorageSuffix st →
  storage_after (saveTasks quota_exceeded tasksObj st) !! k = st !! k.
Proof.
  intros Hk. rewrite saveTasks_run. destruct (quota_exceeded st _ _); [done|].
  by apply lookup_insert_ne.
Qed.

Lemma saveTasks_plan tasksObj st :
  getExitPlanData (storage_after (saveTasks quota_exceeded tasksObj st))
  = getExitPlanData st.
Proof.
  unfold getExitPlanData, getItem. rewrite saveTasks_suffix.
  by rewrite saveTasks_frame by apply quiz_ne_tasks.
Qed.

(** X9: [saveTasks] never raises.  It answers [false] exactly when the
    browser refuses the write, and then the storage is as it was;
    otherwise it answers [true] and the task record of the current suffix
    holds what was passed.  In any case nothing but that record has
    changed: the session, the directory and the quiz record read as
    before. *)
Theorem saveTasks_never_throws (tasksObj : value) (st : Storage) :
  ∃ b st',
    saveTasks quota_exceeded tasksObj st = Done b st' ∧
    (b = false ↔
     quota_exceeded st (STORAGE_TASKS +:+ getStorageSuffix st)
       (JSON_stringify tasksObj) = true) ∧
    (b = false → st' = st) ∧
    (b = true →
     st' = <[STORAGE_TASKS +:+ getStorageSuffix st
             := JSON_stringify tasksObj]> st) ∧
    (∀ k, k ≠ STORAGE_TASKS +:+ getStorageSuffix st → st' !! k = st !! k) ∧
    getCurrentUser st' = getCurrentUser st ∧
    getUsers st' = getUsers st ∧
    getExitPlanData st' = getExitPlanData st.
Proof.
  pose proof (saveTasks_frame tasksObj st) as Hframe.
  pose proof (saveTasks_plan tasksObj st) as Hplan.
  rewrite saveTasks_run in *.
  destruct (quota_exceeded st _ _);
    do 2 eexists; (split; [done|]); [by repeat split|].
  cbn [storage_after] in *.
  split; [done|]. split; [done|]. split; [done|]. split; [done|].
  split; [apply getCurrentUser_ext, Hframe, not_eq_sym, tasks_ne_current|].
  split; [apply getUsers_ext, Hframe, not_eq_sym, tasks_ne_users|done].
Qed.

(** X10: after a [saveTasks] that answered [true], [getTasks] returns what
    was saved if that is an object or an array, and the empty object if it
    is [undefined], [null] or a primitive value. *)
Theorem saveTasks_then_getTasks (tasksObj : value) (st st' : Storage) :
  saveTasks quota_exceeded tasksObj st = Done true st' →
  getTasks st' =
    match tasksObj with
    | Some (JObj m) => JObj m
    | Some (JArr l) => JArr l
    | _ => JObj ∅
    end.
Proof.
  intros Hrun.
  pose proof (saveTasks_suffix tasksObj st) as Hsuffix.
  rewrite saveTasks_run in Hrun, Hsuffix.
  destruct (quota_exceeded st _ _); [done|]. injection Hrun as <-.
  cbn [storage_after] in Hsuffix.
  unfold getTasks, getItem. rewrite Hsuffix, lookup_insert_eq.
  by destruct tasksObj as [[]|].
Qed.

(** X11: while the combined record of the session holds a member
    [completedTasks], what [saveTasks] stores does not reach
    [getAppState]: it returns what it returned before. *)
Theorem saveTasks_not_seen_by_getAppState (tasksObj : value) (st : Storage)
    (m : gmap string json) :
  st !! (STORAGE_APP_STATE +:+ getStorageSuffix st) = Some (TJson (JObj m)) →
  is_Some (m !! "completedTasks") →
  getAppState (storage_after (saveTasks quota_exceeded tasksObj st))
  = getAppState st.
Proof.
  intros Hraw [done_ Hdone].
  unfold getAppState, getItem. rewrite saveTasks_suffix, saveTasks_plan.
  rewrite saveTasks_frame by apply not_eq_sym, tasks_ne_app. rewrite Hraw.
  cbn [parse_or JSON_parse exc_bind prop catch own_enumerable].
  rewrite Hdone. cbn [or_else].
  apply map_eq. intros name. rewrite !lookup_union.
  destruct (m !! name) as [v|] eqn:Hv; [by rewrite !union_Some_l|].
  rewrite !(left_id None _).
  destruct (decide (name = "isPlanGenerated")) as [->|?];
    [by rewrite !lookup_insert_eq|].
  rewrite !(lookup_insert_ne _ "isPlanGenerated") by done.
  destruct (decide (name = "exitPlanData")) as [->|?];
    [by rewrite !lookup_insert_eq|].
  rewrite !(lookup_insert_ne _ "exitPlanData") by done.
  assert (name ≠ "completedTasks") by congruence.
  by rewrite !lookup_insert_ne.
Qed.

End TaskTracker.

Lemma saveTasks_then_getTasks_witness :
  getTasks (storage_after
              (saveTasks accept_all (Some (JObj {[ "send-notice" := JBool true ]}))
                 ana_registered))
  = JObj {[ "send-notice" := JBool true ]}.
Proof.
  by apply (saveTasks_then_getTasks accept_all
              (Some (JObj {[ "send-notice" := JBool true ]})) ana_registered).
Defined.

Lemma saveTasks_not_seen_by_getAppState_witness :
  getAppState (storage_after
                 (saveTasks accept_all
                    (Some (JObj {[ "send-notice" := JBool true ]}))
                    after_first_plan))
    !! "completedTasks"
  = Some (JObj ∅).
Proof.
  rewrite (saveTasks_not_seen_by_getAppState accept_all _ after_first_plan
             {[ "isPlanGenerated" := JBool false;
                "exitPlanData" := sample_plan;
                "completedTasks" := JObj ∅ ]}).
  - reflexivity.
  - reflexivity.
  - by eexists.
Defined.

(** ** Writing and reading the application state *)

Lemma planned_writes_NoDup updates st : NoDup (planned_writes updates st).*1.
Proof.
  unfold planned_writes.
  destruct (not_nullish _); destruct (_ && _); cbn [app fmap list_fmap fst];
    repeat (apply NoDup_cons; split;
            [rewrite ?not_elem_of_cons; split_and?;
             solve [apply not_elem_of_nil | apply quiz_ne_tasks
                   | apply quiz_ne_app | apply tasks_ne_app]|]);
    apply NoDup_nil_2.
Qed.

Lemma foldl_insert_lookup_ne (ws : list (string * text)) (st : Storage) k :
  k ∉ ws.*1 → foldl (λ s w, <[w.1 := w.2]> s) st ws !! k = st !! k.
Proof.
  revert st. induction ws as [|[k' t'] ws IH]; intros st Hk; [done|].
  rewrite fmap_cons, not_elem_of_cons in Hk. destruct Hk as [Hne Hk].
  cbn [foldl fst snd]. rewrite IH by done. by rewrite lookup_insert_ne.
Qed.

Lemma foldl_insert_lookup (ws : list (string * text)) (st : Storage) k t :
  NoDup ws.*1 → (k, t) ∈ ws →
  foldl (λ s w, <[w.1 := w.2]> s) st ws !! k = Some t.
Proof.
  revert st. induction ws as [|[k' t'] ws IH]; intros st Hnd Hin.
  - by apply elem_of_nil in Hin.
  - rewrite fmap_cons in Hnd. apply NoDup_cons in Hnd as [Hk' Hnd].
    cbn [foldl fst snd]. apply elem_of_cons in Hin as [[= -> ->]|Hin].
    + rewrite foldl_insert_lookup_ne by done. apply lookup_insert_eq.
    + by apply IH.
Qed.

Section ReadAfterWrite.
Context (quota_exceeded : Storage → string → text → bool).


Lemma saveAppState_written updates st st' :
  saveAppState quota_exceeded updates st = Done true st' →
  getStorageSuffix st' = getStorageSuffix st ∧
  ∀ k t, (k, t) ∈ planned_writes updates st → st' !! k = Some t.
Proof.
  intros Hsave. split.
  { eapply getStorageSuffix_ext, saveAppState_current, Hsave. }
  rewrite saveAppState_plan in Hsave. injection Hsave as Hb Hst.
  apply store_all_done in Hb. rewrite Hst in Hb. subst st'.
  intros k t. apply foldl_insert_lookup, planned_writes_NoDup.
Qed.


Lemma merged_member updates st name :
  name ∈ state_fields →
  updates !! name ≠ Some undefined →
  is_Some (member (merged updates st) name).
Proof.
  intros Hname Hu. unfold member, merged. rewrite lookup_union.
  destruct (updates !! name) as [[v|]|] eqn:Hv.
  - rewrite union_Some_l. by eexists.
  - done.
  - rewrite (left_id None _), lookup_fmap.
    destruct (getAppState_fields st name Hname) as [v' ->]. by eexists.
Qed.

(** X12: after a [saveAppState] that answered [true], [getAppState]
    returns the three members of the merged state [{...current,
    ...updates}] and nothing else, provided the update sets none of the
    three to [undefined]: other members of the update, and of the state
    read before, are dropped. *)
Theorem saveAppState_then_getAppState (updates : gmap string value)
    (st st' : Storage) :
  saveAppState quota_exceeded updates st = Done true st' →
  (∀ name, name ∈ state_fields → updates !! name ≠ Some undefined) →
  ∃ g p t,
    member (merged updates st) "isPlanGenerated" = Some g ∧
    member (merged updates st) "exitPlanData" = Some p ∧
    member (merged updates st) "completedTasks" = Some t ∧
    getAppState st'
    = {[ "isPlanGenerated" := g; "exitPlanData" := p; "completedTasks" := t ]}.
Proof.
  intros Hsave Hdefined.
  assert (∀ name, name ∈ state_fields →
            is_Some (member (merged updates st) name)) as Hmember.
  { intros name Hname. apply merged_member; auto. }
  destruct (Hmember "isPlanGenerated") as [g Hg];
    [unfold state_fields; rewrite !elem_of_cons; tauto|].
  destruct (Hmember "exitPlanData") as [p Hp];
    [unfold state_fields; rewrite !elem_of_cons; tauto|].
  destruct (Hmember "completedTasks") as [t Ht];
    [unfold state_fields; rewrite !elem_of_cons; tauto|].
  exists g, p, t. split_and!; [done..|].
  destruct (saveAppState_written _ _ _ Hsave) as [Hsuffix Hwritten].
  unfold getAppState, getItem. rewrite Hsuffix.
  rewrite (Hwritten (STORAGE_APP_STATE +:+ getStorageSuffix st)
             (combined_record (merged updates st))).
  2:{ unfold planned_writes.
      rewrite !elem_of_app, elem_of_cons. by right; right; left. }
  unfold combined_record, JSON_stringify_object, object.
  rewrite Hg, Hp, Ht.
  cbn [list_to_map foldr uncurry fst snd].
  repeat (erewrite omap_insert_Some by reflexivity). rewrite omap_empty.
  cbn [parse_or JSON_parse exc_bind prop catch own_enumerable].
  rewrite <-insert_empty.
  apply map_eq. intros name. rewrite lookup_union.
  destruct (decide (name = "isPlanGenerated")) as [->|?].
  { rewrite !lookup_insert_eq. by rewrite union_Some_l. }
  rewrite !(lookup_insert_ne _ "isPlanGenerated") by done.
  destruct (decide (name = "exitPlanData")) as [->|?].
  { rewrite !lookup_insert_eq. by rewrite union_Some_l. }
  rewrite !(lookup_insert_ne _ "exitPlanData") by done.
  destruct (decide (name = "completedTasks")) as [->|?].
  { rewrite !lookup_insert_eq. by rewrite union_Some_l. }
  by rewrite !lookup_insert_ne.
Qed.


(** X14: [saveAppState] changes nothing but the three records of the
    current suffix: the session, the directory and every other entry of
    the storage are as they were. *)
Theorem saveAppState_writes_own_keys (updates : gmap string value)
    (st : Storage) :
  ∃ b st',
    saveAppState quota_exceeded updates st = Done b st' ∧
    (∀ k, k ∉ state_keys (getStorageSuffix st) → st' !! k = st !! k) ∧
    getCurrentUser st' = getCurrentUser st ∧
    getUsers st' = getUsers st ∧
    getStorageSuffix st' = getStorageSuffix st.
Proof.
  destruct (saveAppState_total quota_exceeded updates st) as (b & st' & Hrun).
  exists b, st'. split; [done|].
  assert (∀ k, k ∉ state_keys (getStorageSuffix st) → st' !! k = st !! k)
    as Hframe by (intros k; by eapply saveAppState_frame).
  split; [done|].
  split; [apply getCurrentUser_ext, Hframe, state_keys_not_current|].
  split; [apply getUsers_ext, Hframe, state_keys_not_users|].
  apply getStorageSuffix_ext, Hframe, state_keys_not_current.
Qed.

End ReadAfterWrite.

Lemma saveAppState_then_getAppState_witness :
  getAppState
    (storage_after
       (saveAppState accept_all
          {[ "exitPlanData" := Some sample_plan; "theme" := Some (JStr "dark") ]}
          ana_registered))
    !! "theme"
  = None.
Proof.
  destruct (saveAppState_then_getAppState accept_all
              {[ "exitPlanData" := Some sample_plan;
                 "theme" := Some (JStr "dark") ]}
              ana_registered
              (storage_after
                 (saveAppState accept_all
                    {[ "exitPlanData" := Some sample_plan;
                       "theme" := Some (JStr "dark") ]}
                    ana_registered)))
    as (g & p & t & _ & _ & _ & ->).
  - vm_compute. reflexivity.
  - intros name. unfold state_fields. rewrite !elem_of_cons, elem_of_nil.
    intros [->|[->|[->|[]]]]; vm_compute; discriminate.
  - reflexivity.
Defined.


(** Ben's session, on a browser where Ana has saved a plan under hers. *)
Lemma saveAppState_isolated_witness :
  getAppState
    (<[STORAGE_CURRENT :=
         TJson (JObj (registeredSession "ben@example.com" (Some "Ben") None
                        None None))]> ana_saved_plan)
  = getAppState
      (<[STORAGE_CURRENT :=
           TJson (JObj (registeredSession "ben@example.com" (Some "Ben") None
                          None None))]> ana_registered).
Proof.
  apply (saveAppState_isolated accept_all
           {[ "exitPlanData" := Some sample_plan ]} ana_registered true).
  - vm_compute. reflexivity.
  - vm_compute. discriminate.
Defined.

(** ** Logging in and out *)



Section Login.
Context (quota_exceeded : Storage → string → text → bool).


(** X15: [login] with an address under whose key the directory holds
    nothing, the key not being the name of a member that every object
    inherits ([constructor], [toString] and the like, which the lookup
    would find), returns the no-account error and writes nothing. *)
Theorem login_unknown_email (email password : string) (st : Storage)
    (users : gmap string json) :
  getUsers st = JObj users →
  users !! trim (toLowerCase email) = None →
  trim (toLowerCase email) ∉ Object_prototype →
  login quota_exceeded email password st
  = Done (failure "No account found with this email address.") st.
Proof.
  intros Husers Hnone Hproto. unfold login. js_run.
  rewrite Husers. unfold index. rewrite Hnone.
  by rewrite bool_decide_eq_false_2.
Qed.

(** X16: [login] with a password that is not the one of the record
    returns the incorrect-password error and writes nothing. *)
Theorem login_wrong_password (email password : string) (st : Storage)
    (users record : gmap string json) :
  getUsers st = JObj users →
  users !! trim (toLowerCase email) = Some (JObj record) →
  record !! "password" ≠ Some (JStr password) →
  login quota_exceeded email password st
  = Done (failure "The password you entered is incorrect.") st.
Proof.
  intros Husers Hrecord Hpw. unfold login. js_run.
  rewrite Husers. unfold index. rewrite Hrecord. js_run.
  cbn [truthy prop]. js_run.
  assert (is_string (record !! "password") password = false) as ->; [|done].
  destruct (record !! "password") as [[| | |s| |]|]; try done.
  cbn [is_string]. apply String.eqb_neq. congruence.
Qed.


End Login.

Lemma login_unknown_email_witness :
  login accept_all "carl@example.com" "correct horse" ana_and_ben
  = Done (failure "No account found with this email address.") ana_and_ben.
Proof.
  eapply (login_unknown_email accept_all).
  - reflexivity.
  - reflexivity.
  - intros H%inherited_no_at. vm_compute in H. discriminate.
Defined.

Lemma login_wrong_password_witness :
  login accept_all "Ben@example.com" "correct horse" ana_and_ben
  = Done (failure "The password you entered is incorrect.") ana_and_ben.
Proof.
  eapply (login_wrong_password accept_all).
  - reflexivity.
  - reflexivity.
  - vm_compute. discriminate.
Defined.


Section Sessions.
Context (quota_exceeded : Storage → string → text → bool).


(** X19: [logout] always returns; after it nobody is logged in, the
    suffix is empty, [updateUserProfile] answers the not-logged-in error
    and writes nothing, the guard of the pages answers [null], and every
    entry but the session is as it was. *)
Theorem logout_ends_session (st : Storage) (updates : ProfileUpdates)
    (pathname : string) :
  ∃ st',
    logout st = Done tt st' ∧
    getCurrentUser st' = JNull ∧
    getStorageSuffix st' = "" ∧
    (∀ k, k ≠ STORAGE_CURRENT → st' !! k = st !! k) ∧
    updateUserProfile quota_exceeded updates st'
      = Done (failure "Not logged in.") st' ∧
    (requireAuth pathname st').1 = JNull.
Proof.
  eexists. split; [reflexivity|].
  assert (getCurrentUser (delete STORAGE_CURRENT st) = JNull) as Hnone.
  { unfold getCurrentUser, getItem. by rewrite lookup_delete_eq. }
  split; [done|].
  split; [by rewrite getStorageSuffix_eq, Hnone|].
  split; [intros k Hk; by rewrite lookup_delete_ne|].
  split.
  - unfold updateUserProfile. js_run. by rewrite Hnone.
  - unfold requireAuth. by rewrite Hnone.
Qed.

End Sessions.


(** ** An error leaves the storage as it was *)

Lemma fails_cleanly_ret (st : Storage) (r : Result) : fails_cleanly st (ret r st).
Proof. by intros e st' [= _ <-]. Qed.

Lemma fails_cleanly_step {A} (m : js A) (k : A → js Result) (st : Storage) :
  stateless m →
  (∀ a, m st = Done a st → fails_cleanly st (k a st)) →
  fails_cleanly st (bind m k st).
Proof.
  intros Hm Hk. unfold bind.
  destruct (Hm st) as [->|[->|[a Ha]]]; [done|done|].
  rewrite Ha. by apply Hk.
Qed.

Lemma no_failure_fails_cleanly (st : Storage) (r : run Result) :
  no_failure r → fails_cleanly st r.
Proof. intros Hr e st' H. by apply Hr in H. Qed.

Lemma no_failure_step {A} (m : js A) (k : A → js Result) (st : Storage) :
  (∀ a st1, no_failure (k a st1)) → no_failure (bind m k st).
Proof. intros Hk. unfold bind. destruct (m st); [apply Hk|done|done]. Qed.

Lemma no_failure_success (st : Storage) : no_failure (ret success st).
Proof. done. Qed.

Section Failures.
Context (quota_exceeded : Storage → string → text → bool).

Lemma register_failure_writes_nothing (now email password : string)
    (name phone address occupation : option string)
    (st st' : Storage) (e : string) :
  register quota_exceeded now email password name phone address occupation st
    = Done (failure e) st' →
  st' = st.
Proof.
  revert e st'.
  change (fails_cleanly st
            (register quota_exceeded now email password name phone address
               occupation st)).
  unfold register.
  apply fails_cleanly_step; [apply stateless_read|]. intros users _.
  apply fails_cleanly_step; [apply stateless_index|]. intros existing _.
  destruct (truthy_v existing); [apply fails_cleanly_ret|].
  destruct (isValidEmail email); cbn [negb]; [|apply fails_cleanly_ret].
  destruct (isValidPassword password); cbn [negb]; [|apply fails_cleanly_ret].
  destruct (isValidPhone phone); cbn [negb]; [|apply fails_cleanly_ret].
  apply fails_cleanly_step; [apply stateless_assign|]. intros users' _.
  apply no_failure_fails_cleanly.
  repeat (apply no_failure_step; intros). apply no_failure_success.
Qed.

Lemma login_failure_writes_nothing (email password : string)
    (st st' : Storage) (e : string) :
  login quota_exceeded email password st = Done (failure e) st' →
  st' = st.
Proof.
  revert e st'.
  change (fails_cleanly st (login quota_exceeded email password st)).
  unfold login.
  apply fails_cleanly_step; [apply stateless_read|]. intros users _.
  apply fails_cleanly_step; [apply stateless_index|]. intros u _.
  destruct (truthy_v u); cbn [negb]; [|apply fails_cleanly_ret].
  apply fails_cleanly_step; [apply stateless_lift|]. intros pw _.
  destruct (is_string pw password); cbn [negb]; [|apply fails_cleanly_ret].
  apply no_failure_fails_cleanly.
  repeat (apply no_failure_step; intros). apply no_failure_success.
Qed.

Lemma applyProfile_fails_cleanly updates newEmail users st :
  fails_cleanly st (applyProfile quota_exceeded updates newEmail users st).
Proof.
  unfold applyProfile.
  apply fails_cleanly_step; [apply stateless_index|]. intros user0 _.
  apply fails_cleanly_step; [apply stateless_set_if_given|]. intros user1 _.
  destruct (isValidPhone _); cbn [negb]; [|apply fails_cleanly_ret].
  do 3 (apply fails_cleanly_step; [apply stateless_set_if_given|]; intros ? _).
  apply fails_cleanly_step.
  { destruct (u_password updates); [destruct (_ && _)|];
      first [apply stateless_set_member|apply stateless_ret]. }
  intros user5 _.
  apply fails_cleanly_step; [apply stateless_set_member|]. intros user6 _.
  apply no_failure_fails_cleanly.
  repeat (apply no_failure_step; intros). apply no_failure_success.
Qed.

Lemma updateUserProfile_failure_writes_nothing (updates : ProfileUpdates)
    (st st' : Storage) (e : string) :
  updateUserProfile quota_exceeded updates st = Done (failure e) st' →
  st' = st.
Proof.
  revert e st'.
  change (fails_cleanly st (updateUserProfile quota_exceeded updates st)).
  unfold updateUserProfile.
  apply fails_cleanly_step; [apply stateless_read|]. intros current _.
  destruct (truthy current); cbn [negb]; [|apply fails_cleanly_ret].
  apply fails_cleanly_step; [apply stateless_read|]. intros users _.
  apply fails_cleanly_step; [apply stateless_lift|]. intros c_email _.
  apply fails_cleanly_step; [apply stateless_lift|]. intros c_string _.
  destruct (String.eqb _ _); cbn [negb]; [apply applyProfile_fails_cleanly|].
  destruct (isValidEmail _); cbn [negb]; [|apply fails_cleanly_ret].
  apply fails_cleanly_step; [apply stateless_index|]. intros taken _.
  destruct (truthy_v taken); [apply fails_cleanly_ret|].
  apply fails_cleanly_step; [apply stateless_index|]. intros old _.
  apply fails_cleanly_step; [apply stateless_assign|]. intros users1 _.
  apply fails_cleanly_step; [apply stateless_delete_member|]. intros users2 _.
  apply applyProfile_fails_cleanly.
Qed.

End Failures.

(** X20: none of [register], [login] and [updateUserProfile] changes the
    storage when it returns an error; what [updateUserProfile] had changed
    in the directory it read is not saved. *)
Theorem errors_write_nothing (quota_exceeded : Storage → string → text → bool) :
  (∀ now email password name phone address occupation st st' e,
     register quota_exceeded now email password name phone address occupation
       st = Done (failure e) st' →
     st' = st) ∧
  (∀ email password st st' e,
     login quota_exceeded email password st = Done (failure e) st' →
     st' = st) ∧
  (∀ updates st st' e,
     updateUserProfile quota_exceeded updates st = Done (failure e) st' →
     st' = st).
Proof.
  split; [|split]; intros.
  - by eapply register_failure_writes_nothing.
  - by eapply login_failure_writes_nothing.
  - by eapply updateUserProfile_failure_writes_nothing.
Qed.

(** A registration with a short password, a login with the password of
    another, and a profile update with a phone of five digits. *)
Lemma errors_write_nothing_witness :
  match register accept_all "2026-11-03T08:00:00.000Z" "carl@example.com"
          "short" None None None None ana_and_ben with
  | Done (failure _) st' => st' = ana_and_ben
  | _ => False
  end ∧
  match login accept_all "ana@example.com" "battery staple" ana_and_ben with
  | Done (failure _) st' => st' = ana_and_ben
  | _ => False
  end ∧
  match updateUserProfile accept_all
          {| u_email := None; u_name := Some "Anna"; u_phone := Some "55501";
             u_address := None; u_occupation := None; u_password := None |}
          ana_and_ben with
  | Done (failure _) st' => st' = ana_and_ben
  | _ => False
  end.
Proof.
  destruct (errors_write_nothing accept_all) as (Hregister & Hlogin & Hupdate).
  split; [|split].
  - specialize (Hregister "2026-11-03T08:00:00.000Z" "carl@example.com" "short"
                  None None None None ana_and_ben).
    destruct (register accept_all _ _ _ _ _ _ _ _) as [[|e] st'| |] eqn:Hrun;
      try (vm_compute in Hrun; discriminate).
    by apply (Hregister st' e).
  - specialize (Hlogin "ana@example.com" "battery staple" ana_and_ben).
    destruct (login accept_all _ _ _) as [[|e] st'| |] eqn:Hrun;
      try (vm_compute in Hrun; discriminate).
    by apply (Hlogin st' e).
  - specialize (Hupdate
                  {| u_email := None; u_name := Some "Anna";
                     u_phone := Some "55501"; u_address := None;
                     u_occupation := None; u_password := None |}
                  ana_and_ben).
    destruct (updateUserProfile accept_all _ _) as [[|e] st'| |] eqn:Hrun;
      try (vm_compute in Hrun; discriminate).
    by apply (Hupdate st' e).
Defined.

(** ** Registration at its edges *)

Section RegisterEdges.
Context (quota_exceeded : Storage → string → text → bool).

(** X21: [register] checks the pattern on the address as it was typed,
    while it files and looks up under the lowercased, trimmed address: an
    address with white space anywhere in it, around it included, under
    whose key nothing is filed, the key not being the name of a member
    that every object inherits ([constructor], [toString] and the like,
    which the lookup would find), is refused as invalid, and nothing is
    written. *)
Theorem register_padded_address (now email password : string)
    (name phone address occupation : option string)
    (st : Storage) (users : gmap string json) :
  getUsers st = JObj users →
  users !! trim (toLowerCase email) = None →
  trim (toLowerCase email) ∉ Object_prototype →
  string_exists is_whitespace email = true →
  register quota_exceeded now email password name phone address occupation st
  = Done (failure "Please enter a valid email address.") st.
Proof.
  intros Husers Hfree Hproto Hspace.
  assert (isValidEmail email = false) as Hinvalid.
  { destruct (isValidEmail email) eqn:He; [|done].
    apply isValidEmail_no_whitespace in He.
    by rewrite (string_exists_not_forall _ _ Hspace) in He. }
  unfold register. js_run. rewrite Husers. unfold index. rewrite Hfree.
  rewrite bool_decide_eq_false_2 by done. js_run. by rewrite Hinvalid.
Qed.


End RegisterEdges.

Lemma register_padded_address_witness :
  register accept_all "2026-11-03T08:00:00.000Z" " carl@example.com"
    "correct horse" None None None None ana_and_ben
  = Done (failure "Please enter a valid email address.") ana_and_ben.
Proof.
  eapply (register_padded_address accept_all).
  - reflexivity.
  - reflexivity.
  - intros H%inherited_no_at. vm_compute in H. discriminate.
  - reflexivity.
Defined.


(** ** A profile update that goes through *)

Lemma set_field_lookup_ne field name f r k :
  name ≠ k → set_field field name f r !! k = r !! k.
Proof. intros Hk. destruct field; [by apply lookup_insert_ne|done]. Qed.

Section ProfileUpdate.
Context (quota_exceeded : Storage → string → text → bool).

(** The run of [applyProfile] on the record of the user. *)
Lemma applyProfile_run (updates : ProfileUpdates) (newEmail : string)
    (users record : gmap string json) (st : Storage) :
  users !! newEmail = Some (JObj record) →
  isValidPhone (u_phone updates) = true →
  applyProfile quota_exceeded updates newEmail (JObj users) st
  = bind (saveUsers quota_exceeded
            (JObj (<[newEmail := JObj (updatedRecord updates newEmail record)]>
                     users)))
      (λ _,
         bind (setItem quota_exceeded STORAGE_CURRENT
                 (sessionText newEmail
                    (updatedRecord updates newEmail record !! "name")
                    (Some (or_else
                             (updatedRecord updates newEmail record !! "phone")
                             (JStr "")))
                    (Some (or_else
                             (updatedRecord updates newEmail record !! "address")
                             (JStr "")))
                    (Some (or_else
                             (updatedRecord updates newEmail record
                                !! "occupation")
                             (JStr "")))))
           (λ _, ret success)) st.
Proof.
  intros Hrecord Hphone. unfold applyProfile, index. rewrite Hrecord, Hphone.
  unfold updatedRecord.
  destruct updates as [e [n|] [p|] [a|] [o|] [pw|]];
    cbn [u_name u_phone u_address u_occupation u_password set_if_given
         set_member set_field];
    try destruct (negb (String.eqb pw "") && (8 <=? String.length pw));
    js_run; reflexivity.
Qed.

Lemma updatedRecord_lookup (updates : ProfileUpdates) (newEmail : string)
    (record : gmap string json) :
  updatedRecord updates newEmail record !! "email" = Some (JStr newEmail) ∧
  updatedRecord updates newEmail record !! "password"
    = match u_password updates with
      | Some p =>
          if 8 <=? String.length p then Some (JStr p)
          else record !! "password"
      | None => record !! "password"
      end ∧
  updatedRecord updates newEmail record !! "registeredAt"
    = record !! "registeredAt".
Proof.
  unfold updatedRecord. split; [apply lookup_insert_eq|].
  rewrite !(lookup_insert_ne _ "email") by done. split.
  - destruct (u_password updates) as [p|].
    + destruct p as [|c p]; cbn [String.eqb negb andb].
      * by rewrite !set_field_lookup_ne.
      * replace (String.eqb (String c p) "") with false by done.
        cbn [negb andb]. destruct (8 <=? _).
        -- apply lookup_insert_eq.
        -- by rewrite !set_field_lookup_ne.
    + by rewrite !set_field_lookup_ne.
  - destruct (u_password updates) as [p|];
      [destruct (_ && _); [rewrite lookup_insert_ne by done|]|];
      by rewrite !set_field_lookup_ne.
Qed.




End ProfileUpdate.



(** ** How the records are filed *)

Lemma accounts_ok_empty : accounts_ok ∅.
Proof. exists ∅. split; [done|]. apply map_Forall_empty. Qed.

Lemma accounts_ok_ext (st st' : Storage) :
  st' !! STORAGE_USERS = st !! STORAGE_USERS → accounts_ok st → accounts_ok st'.
Proof.
  intros H (users & Hu & Hf). exists users. split; [|done].
  rewrite <-Hu. by apply getUsers_ext.
Qed.

Lemma accounts_ok_users users (st : Storage) :
  filed_but None users →
  accounts_ok (<[STORAGE_USERS := TJson (JObj users)]> st).
Proof.
  intros Hf. exists users. split; [|done].
  apply getUsers_stored, lookup_insert_eq.
Qed.

Lemma password_ok_empty : password_ok ∅.
Proof. intros pw H. by rewrite lookup_empty in H. Qed.

Lemma password_ok_updated updates newEmail r :
  password_ok r → password_ok (updatedRecord updates newEmail r).
Proof.
  intros Hr pw.
  destruct (updatedRecord_lookup updates newEmail r) as (_ & -> & _).
  destruct (u_password updates) as [p|]; [|apply Hr].
  destruct (Nat.leb_spec 8 (String.length p)); [|apply Hr].
  intros [= <-]. by exists p.
Qed.

Lemma filed_but_weaken x users : filed_but None users → filed_but x users.
Proof.
  intros Hf. eapply map_Forall_impl; [exact Hf|].
  intros k v (Hk & r & -> & Hpw & He).
  split; [done|]. exists r. split; [done|]. split; [done|].
  intros _. by apply He.
Qed.

(** Filing the updated record under [x] settles the entry under [x]. *)
Lemma filed_but_updated updates x r users :
  filed_but (Some x) users → users !! x = Some (JObj r) →
  filed_but None (<[x := JObj (updatedRecord updates x r)]> users).
Proof.
  intros Hf Hx. destruct (Hf _ _ Hx) as (Hk & r' & [= <-] & Hpw & _).
  rewrite <-insert_delete_eq. apply map_Forall_insert_2.
  - split; [done|]. eexists. split; [done|].
    split; [by apply password_ok_updated|]. intros _.
    by destruct (updatedRecord_lookup updates x r) as (-> & _).
  - intros k v [Hne Hkv]%lookup_delete_Some.
    destruct (Hf _ _ Hkv) as (Hk' & r' & -> & Hpw' & He).
    split; [done|]. exists r'. split; [done|]. split; [done|].
    intros _. apply He. congruence.
Qed.

Lemma set_if_given_object field name f r (st : Storage) :
  set_if_given field name f (Some (JObj r)) st
  = Done (Some (JObj (set_field field name f r))) st.
Proof. by destruct field. Qed.

Section Accounts.
Context (quota_exceeded : Storage → string → text → bool).

Lemma applyProfile_missing updates newEmail users st :
  users !! newEmail = None →
  storage_after (applyProfile quota_exceeded updates newEmail (JObj users) st)
    = st ∨
  storage_after (applyProfile quota_exceeded updates newEmail (JObj users) st)
    = ∅.
Proof.
  intros Hnone. unfold applyProfile.
  apply (after_stateless (λ s, s = st ∨ s = ∅));
    [apply stateless_index|by right|by left|].
  intros user0 (m & [= <-] & Huser0)%index_Done.
  rewrite Hnone in Huser0. subst user0.
  apply (after_stateless (λ s, s = st ∨ s = ∅));
    [apply stateless_set_if_given|by right|by left|].
  intros user1 Huser1%set_if_given_Done.
  destruct (isValidPhone _); cbn [negb]; [|by left].
  apply (after_stateless (λ s, s = st ∨ s = ∅));
    [apply stateless_set_if_given|by right|by left|].
  intros user2 Huser2%set_if_given_Done.
  apply (after_stateless (λ s, s = st ∨ s = ∅));
    [apply stateless_set_if_given|by right|by left|].
  intros user3 Huser3%set_if_given_Done.
  apply (after_stateless (λ s, s = st ∨ s = ∅));
    [apply stateless_set_if_given|by right|by left|].
  intros user4 Huser4%set_if_given_Done.
  apply (after_stateless (λ s, s = st ∨ s = ∅));
    [destruct (u_password updates);
       [destruct (_ && _)|];
       first [apply stateless_set_member|apply stateless_ret]
    |by right|by left|].
  intros user5 Huser5.
  assert (derived_from user4 user5) as Huser5'.
  { unfold derived_from. destruct (u_password updates) as [p|].
    - destruct (_ && _).
      + by apply set_member_Done in Huser5 as [? _].
      + by injection Huser5 as ->.
    - by injection Huser5 as ->. }
  apply (after_stateless (λ s, s = st ∨ s = ∅));
    [apply stateless_set_member|by right|by left|].
  intros user6 [Huser56 _]%set_member_Done.
  unfold derived_from in *.
  by destruct (Huser1 (Huser2 (Huser3 (Huser4 (Huser5' Huser56))))).
Qed.

Lemma applyProfile_invalid_phone updates newEmail users r st :
  users !! newEmail = Some (JObj r) →
  isValidPhone (u_phone updates) = false →
  applyProfile quota_exceeded updates newEmail (JObj users) st
  = Done (failure "Please enter a valid phone number.") st.
Proof.
  intros Hr Hphone. unfold applyProfile, index. rewrite Hr, Hphone.
  js_run. by rewrite set_if_given_object.
Qed.

Lemma applyProfile_keeps_accounts updates newEmail users st :
  accounts_ok st → filed_but (Some newEmail) users →
  accounts_ok
    (storage_after
       (applyProfile quota_exceeded updates newEmail (JObj users) st)).
Proof.
  intros Hst Hf.
  destruct (users !! newEmail) as [v|] eqn:Hv.
  - destruct (Hf _ _ Hv) as (_ & r & -> & _).
    destruct (isValidPhone (u_phone updates)) eqn:Hphone.
    + rewrite (applyProfile_run _ _ _ _ r) by done.
      unfold bind, saveUsers, setItem, ret.
      destruct (quota_exceeded st _ _); [done|].
      assert (accounts_ok
                (<[STORAGE_USERS :=
                     JSON_stringify
                       (Some (JObj (<[newEmail :=
                                        JObj (updatedRecord updates newEmail r)]>
                                      users)))]> st)) as Hst1.
      { by apply accounts_ok_users, filed_but_updated. }
      destruct (quota_exceeded _ _ _); [done|].
      cbn [storage_after].
      eapply accounts_ok_ext; [|exact Hst1]. by rewrite lookup_insert_ne.
    + by rewrite (applyProfile_invalid_phone _ _ _ r).
  - destruct (applyProfile_missing updates newEmail users st Hv) as [->| ->];
      [done|apply accounts_ok_empty].
Qed.

Lemma register_keeps_accounts now email password name phone address
    occupation st :
  accounts_ok st →
  accounts_ok
    (storage_after
       (register quota_exceeded now email password name phone address
          occupation st)).
Proof.
  intros Hst. pose proof accounts_ok_empty as Hempty.
  destruct Hst as (users & Husers & Hf).
  assert (accounts_ok st) as Hst by (by exists users).
  unfold register.
  apply after_stateless; [apply stateless_read|done..|]. intros ? [= <-].
  rewrite Husers.
  apply after_stateless; [apply stateless_index|done..|]. intros existing _.
  destruct (truthy_v existing); [done|].
  destruct (isValidEmail email) eqn:Hemail; [|done].
  destruct (isValidPassword password) eqn:Hpw; [|done].
  destruct (isValidPhone phone); [|done]. cbn [negb].
  apply after_stateless; [apply stateless_assign|done..|].
  intros users' (m & [= <-] & ->)%assign_Done.
  unfold bind at 1, saveUsers, setItem at 1.
  destruct (quota_exceeded st _ _); [done|].
  set (st1 := <[STORAGE_USERS := _]> st).
  assert (accounts_ok st1) as Hst1.
  { apply accounts_ok_users, map_Forall_insert_2; [|done].
    split; [by apply valid_key in Hemail as (_ & ? & _)|].
    eexists. split; [reflexivity|]. split; [|done].
    intros pw [= <-]. exists password. split; [done|].
    by apply andb_prop in Hpw as [_ ?%Nat.leb_le]. }
  apply after_stateless; [apply stateless_index|done..|]. intros userData _.
  do 4 (apply after_stateless; [apply stateless_lift|done..|]; intros ? _).
  unfold bind, setItem, ret. destruct (quota_exceeded st1 _ _); [done|].
  cbn [storage_after].
  eapply accounts_ok_ext; [|exact Hst1]. by rewrite lookup_insert_ne.
Qed.

Lemma login_keeps_accounts email password st :
  accounts_ok st →
  accounts_ok (storage_after (login quota_exceeded email password st)).
Proof.
  intros Hst. pose proof accounts_ok_empty as Hempty. unfold login.
  apply after_stateless; [apply stateless_read|done..|]. intros users _.
  apply after_stateless; [apply stateless_index|done..|]. intros u _.
  destruct (truthy_v u); [|done]. cbn [negb].
  apply after_stateless; [apply stateless_lift|done..|]. intros pw _.
  destruct (is_string pw password); [|done]. cbn [negb].
  do 4 (apply after_stateless; [apply stateless_lift|done..|]; intros ? _).
  unfold bind, setItem, ret. destruct (quota_exceeded st _ _); [done|].
  cbn [storage_after].
  eapply accounts_ok_ext; [|exact Hst]. by rewrite lookup_insert_ne.
Qed.

Lemma updateUserProfile_keeps_accounts updates st :
  accounts_ok st →
  accounts_ok (storage_after (updateUserProfile quota_exceeded updates st)).
Proof.
  intros Hst. pose proof accounts_ok_empty as Hempty.
  destruct Hst as (users & Husers & Hf).
  assert (accounts_ok st) as Hst by (by exists users).
  unfold updateUserProfile.
  apply after_stateless; [apply stateless_read|done..|]. intros current _.
  destruct (truthy current); [|done]. cbn [negb].
  apply after_stateless; [apply stateless_read|done..|]. intros ? [= <-].
  rewrite Husers.
  apply after_stateless; [apply stateless_lift|done..|]. intros c_email _.
  apply after_stateless; [apply stateless_lift|done..|]. intros c_string _.
  destruct (String.eqb _ _); cbn [negb].
  { apply applyProfile_keeps_accounts; [done|]. by apply filed_but_weaken. }
  destruct (isValidEmail _) eqn:Hnew; [|done]. cbn [negb].
  apply after_stateless; [apply stateless_index|done..|]. intros taken _.
  destruct (truthy_v taken); [done|].
  apply after_stateless; [apply stateless_index|done..|].
  intros old (m & [= <-] & Hold)%index_Done.
  apply after_stateless; [apply stateless_assign|done..|].
  intros users1 (m & [= <-] & ->)%assign_Done.
  apply after_stateless; [apply stateless_delete_member|done..|].
  intros users2 (m & [= <-] & ->)%delete_member_Done.
  apply applyProfile_keeps_accounts; [done|].
  apply map_Forall_delete, map_Forall_insert_2.
  - split; [done|]. exists (spread old). split; [done|]. split; [|done].
    subst old. destruct (users !! _) as [v|] eqn:Hv; [|apply password_ok_empty].
    by destruct (Hf _ _ Hv) as (_ & r & -> & ? & _).
  - by apply filed_but_weaken.
Qed.

End Accounts.

(** X25: in every storage that calls of [register], [login],
    [updateUserProfile], [logout], [saveAppState] and [saveTasks] produce
    from a fresh browser, whatever writes the browser refuses, the
    directory is an object each entry of which is a record filed under a
    key that passes the pattern check; the record carries that key as its
    address, and its password, if it has one, is a string of eight
    characters or more. *)
Theorem reachable_accounts quota_exceeded (st : Storage) :
  reachable quota_exceeded st →
  ∃ users,
    getUsers st = JObj users ∧
    ∀ k v, users !! k = Some v →
      isValidEmail k = true ∧
      ∃ r, v = JObj r ∧
           r !! "email" = Some (JStr k) ∧
           ∀ pw, r !! "password" = Some pw →
                 ∃ p, pw = JStr p ∧ 8 ≤ String.length p.
Proof.
  intros Hreach.
  assert (accounts_ok st) as (users & Husers & Hf).
  { induction Hreach
      as [|st st' now email password name phone address occupation _ IH He
          |st st' email password _ IH He
          |st st' updates _ IH He
          |st st' _ IH He
          |st st' updates _ IH He
          |st st' tasksObj _ IH He];
      [apply accounts_ok_empty|..];
      rewrite <-(ends_storage_after _ _ He).
    - by apply register_keeps_accounts.
    - by apply login_keeps_accounts.
    - by apply updateUserProfile_keeps_accounts.
    - eapply accounts_ok_ext; [|exact IH]. by apply lookup_delete_ne.
    - destruct (saveAppState_total quota_exceeded updates st) as (b & s & Hrun).
      rewrite Hrun. eapply accounts_ok_ext; [|exact IH].
      eapply saveAppState_frame; [exact Hrun|apply state_keys_not_users].
    - rewrite saveTasks_run. destruct (quota_exceeded st _ _); [done|].
      eapply accounts_ok_ext; [|exact IH].
      apply lookup_insert_ne, tasks_ne_users. }
  exists users. split; [done|]. intros k v Hkv.
  destruct (Hf _ _ Hkv) as (Hk & r & -> & Hpw & He).
  split; [done|]. exists r. split; [done|]. split; [by apply He|done].
Qed.

Lemma reachable_accounts_witness :
  ∃ users,
    getUsers ana_registered = JObj users ∧
    ∀ k v, users !! k = Some v →
      isValidEmail k = true ∧
      ∃ r, v = JObj r ∧
           r !! "email" = Some (JStr k) ∧
           ∀ pw, r !! "password" = Some pw →
                 ∃ p, pw = JStr p ∧ 8 ≤ String.length p.
Proof.
  apply (reachable_accounts accept_all).
  apply (reach_register accept_all ∅ ana_registered "2026-11-02T09:00:00.000Z"
           "ana@example.com" "correct horse" (Some "Ana") None None
           (Some "student")); [apply reach_fresh|].
  left. by exists success.
Defined.

(** ** The days until the move-out *)

Lemma ceil_div_bounds (x d : Z) :
  (0 < d)%Z →
  ((ceil_div x d - 1) * d < x ≤ ceil_div x d * d)%Z.
Proof.
  intros Hd. unfold ceil_div.
  pose proof (Z.div_mod (- x) d ltac:(lia)) as Heq.
  pose proof (Z.mod_pos_bound (- x) d Hd) as Hr.
  nia.
Qed.

Section Days.
Context (Date_value : json → option Z) (now : Z).

Lemma getDaysUntilMoveOut_eq (st : Storage) :
  getDaysUntilMoveOut Date_value now st =
    match moveOutDate st with
    | None => Done None st
    | Some d =>
        if truthy d then
          match Date_value d with
          | None => Done (Some NaN) st
          | Some moveOut =>
              if (Z.abs (moveOut - now) <? 2 ^ 53)%Z
              then Done (Some (Num (ceil_div (moveOut - now) MS_PER_DAY))) st
              else Unmodelled
          end
        else Done None st
    end.
Proof.
  unfold getDaysUntilMoveOut, moveOutDate, field_of. js_run.
  destruct (getExitPlanData st) as [|b|n|s|l|m]; cbn [truthy prop]; js_run;
    try reflexivity.
  - by destruct b.
  - by destruct (n =? 0)%Z.
  - by destruct (String.eqb s "").
  - destruct (m !! "moveOutDate") as [d|]; [|done].
    destruct (truthy d); [|done]. js_run.
    destruct (Date_value d) as [moveOut|]; [|done].
    by destruct (_ <? _)%Z.
Qed.


(** X27: when the browser reads the move-out date of the stored plan as a
    time within [2^53] milliseconds of the present, the function returns
    the least number of whole days from now that reaches it; the number is
    zero or negative exactly when the date is not in the future. *)
Theorem getDaysUntilMoveOut_bounds (st : Storage) (d : json) (moveOut : Z) :
  moveOutDate st = Some d →
  truthy d = true →
  Date_value d = Some moveOut →
  (Z.abs (moveOut - now) < 2 ^ 53)%Z →
  ∃ n,
    getDaysUntilMoveOut Date_value now st = Done (Some (Num n)) st ∧
    ((n - 1) * MS_PER_DAY < moveOut - now ≤ n * MS_PER_DAY)%Z ∧
    ((n ≤ 0)%Z ↔ (moveOut ≤ now)%Z).
Proof.
  intros Hd Ht HD Hrange. rewrite getDaysUntilMoveOut_eq, Hd, Ht, HD.
  apply Z.ltb_lt in Hrange as ->.
  eexists. split; [reflexivity|].
  pose proof (ceil_div_bounds (moveOut - now) MS_PER_DAY) as Hb.
  unfold MS_PER_DAY in *. split; [apply Hb; lia|]. lia.
Qed.

End Days.

Lemma getDaysUntilMoveOut_bounds_witness :
  getDaysUntilMoveOut sample_Date_value sample_now after_first_plan
  = Done (Some (Num 29)) after_first_plan.
Proof.
  destruct (getDaysUntilMoveOut_bounds sample_Date_value sample_now
              after_first_plan (JStr "2026-12-01") 1796083200000)
    as (n & -> & Hn & _).
  - reflexivity.
  - reflexivity.
  - reflexivity.
  - vm_compute. reflexivity.
  - unfold MS_PER_DAY, sample_now in Hn. do 3 f_equal. lia.
Defined.


(** ** The housing form *)

Lemma prop_field_of (v : value) (name : string) :
  not_nullish v = true → prop v name = Return (field_of v name).
Proof. by destruct v as [[]|]. Qed.

(** X28: called with [null] or [undefined], [submitHousingToFormspree]
    raises before it sends anything.  Otherwise it sends one POST request
    to the address of the form, whose body is an object with the four
    housing fields and no other member, each field being the one of the
    argument, or the empty string where that is missing or falsy; the
    promise settles as the request does, to the [ok] of the response.
    Two arguments with the same four fields give the same request. *)
Theorem submitHousingToFormspree_four_fields
    (fetch : Request → Promise Response) (housingData : value) :
  (not_nullish housingData = false →
   submitHousingToFormspree fetch housingData = Throw) ∧
  (not_nullish housingData = true →
   ∃ body,
     submitHousingToFormspree fetch housingData
       = Return
           (then_
              (fetch {| req_url := FORMSPREE_URL;
                        req_method := "POST";
                        req_headers := [ ("Content-Type", "application/json") ];
                        req_body := TJson (JObj body) |})
              ok) ∧
     (∀ name, is_Some (body !! name) ↔ name ∈ housing_fields) ∧
     (∀ name, name ∈ housing_fields →
        body !! name = Some (or_else (field_of housingData name) (JStr ""))) ∧
     (∀ other,
        not_nullish other = true →
        (∀ name, name ∈ housing_fields →
           field_of other name = field_of housingData name) →
        submitHousingToFormspree fetch other
          = submitHousingToFormspree fetch housingData)).
Proof.
  split; [by destruct housingData as [[]|]|].
  intros Hdata. unfold submitHousingToFormspree.
  rewrite !prop_field_of by done. cbn [exc_bind].
  unfold JSON_stringify_object, object.
  cbn [list_to_map foldr uncurry fst snd].
  repeat (erewrite omap_insert_Some by reflexivity). rewrite omap_empty.
  eexists. split; [reflexivity|].
  assert (∀ name, name ∉ housing_fields ↔
            name ≠ "email" ∧ name ≠ "location" ∧ name ≠ "move_out_date"
            ∧ name ≠ "landlord_status") as Hout.
  { intros name. unfold housing_fields.
    rewrite !not_elem_of_cons. pose proof (not_elem_of_nil name). tauto. }
  split; [|split].
  - intros name. destruct (decide (name ∈ housing_fields)) as [Hin|Hnot].
    + split; [done|]. intros _. unfold housing_fields in Hin.
      rewrite !elem_of_cons, elem_of_nil in Hin.
      destruct Hin as [->|[->|[->|[->|[]]]]];
        repeat (rewrite lookup_insert_ne by done);
        rewrite lookup_insert_eq; by eexists.
    + split; [|done]. apply Hout in Hnot as (? & ? & ? & ?).
      rewrite !lookup_insert_ne by done. rewrite lookup_empty.
      by intros [? ?].
  - intros name Hin. unfold housing_fields in Hin.
    rewrite !elem_of_cons, elem_of_nil in Hin.
    destruct Hin as [->|[->|[->|[->|[]]]]];
      repeat (rewrite lookup_insert_ne by done); by rewrite lookup_insert_eq.
  - intros other Hother Hsame. rewrite !prop_field_of by done.
    cbn [exc_bind].
    rewrite (Hsame "email"), (Hsame "location"), (Hsame "move_out_date"),
      (Hsame "landlord_status");
      [done|unfold housing_fields; rewrite !elem_of_cons; tauto..].
Qed.

(** A form that also carries a password, sent on a network that answers. *)
Lemma submitHousingToFormspree_four_fields_witness :
  ∃ body,
    submitHousingToFormspree (λ _, Fulfilled {| ok := true |})
      (Some (JObj {[ "email" := JStr "ana@example.com";
                     "password" := JStr "correct horse" ]}))
      = Return
          (then_
             ((λ _, Fulfilled {| ok := true |})
                {| req_url := FORMSPREE_URL;
                   req_method := "POST";
                   req_headers := [ ("Content-Type", "application/json") ];
                   req_body := TJson (JObj body) |})
             ok) ∧
    body !! "email" = Some (JStr "ana@example.com") ∧
    body !! "location" = Some (JStr "") ∧
    body !! "password" = None.
Proof.
  destruct (proj2 (submitHousingToFormspree_four_fields
                     (λ _, Fulfilled {| ok := true |})
                     (Some (JObj {[ "email" := JStr "ana@example.com";
                                    "password" := JStr "correct horse" ]})))
              eq_refl)
    as (body & Hrun & Hdom & Hval & _).
  exists body. split; [exact Hrun|].
  split; [|split].
  - apply (Hval "email"). unfold housing_fields. rewrite !elem_of_cons. tauto.
  - apply (Hval "location"). unfold housing_fields. rewrite !elem_of_cons.
    tauto.
  - apply eq_None_not_Some. intros Hin%Hdom. unfold housing_fields in Hin.
    rewrite !elem_of_cons, elem_of_nil in Hin.
    by destruct Hin as [|[|[|[|]]]].
Defined.

(** ** The guard of the pages *)

Lemma string_forall_app q (s t : string) :
  string_forall q (s +:+ t) = string_forall q s && string_forall q t.
Proof.
  induction s as [|c s IH]; [done|]. rewrite app_cons. simpl.
  by rewrite IH, andb_assoc.
Qed.

Lemma encodeURIComponent_safe (s : string) :
  string_forall uri_safe (encodeURIComponent s) = true.
Proof.
  induction s as [|c s IH]; [done|]. cbn [encodeURIComponent].
  rewrite string_forall_app, IH, andb_true_r. clear.
  destruct c as [[] [] [] [] [] [] [] []]; reflexivity.
Qed.

Lemma encodeURIComponent_nonempty (s : string) :
  s ≠ "" → encodeURIComponent s ≠ "".
Proof.
  destruct s as [|c s]; [done|]. intros _. cbn [encodeURIComponent].
  intros [H _]%app_eq_empty. revert H. clear.
  destruct (uri_unreserved c); [done|].
  destruct (_ <? _)%N; [done|]. unfold percent. by rewrite app_cons.
Qed.

(** X29: with nobody logged in, [requireAuth] returns [null] and sends
    the page to [login.html?redirect=] followed by a non-empty string of
    unreserved characters and percent signs, so that the path of the page
    cannot end or extend the query; with somebody logged in it returns the
    session, an object whose [isLoggedIn] is truthy, and sends the page
    nowhere. *)
Theorem requireAuth_guard (pathname : string) (st : Storage) :
  (getCurrentUser st = JNull ∧
   ∃ target,
     requireAuth pathname st
       = (JNull, Some ("login.html?redirect=" +:+ target)) ∧
     target ≠ "" ∧
     string_forall uri_safe target = true) ∨
  (∃ session flag,
     getCurrentUser st = JObj session ∧
     session !! "isLoggedIn" = Some flag ∧
     truthy flag = true ∧
     requireAuth pathname st = (JObj session, None)).
Proof.
  unfold requireAuth.
  assert (getCurrentUser st = JNull ∨
          ∃ session flag,
            getCurrentUser st = JObj session ∧
            session !! "isLoggedIn" = Some flag ∧ truthy flag = true)
    as [Hnone|(session & flag & Hcur & Hflag & Htrue)].
  { unfold getCurrentUser, getItem.
    destruct (st !! STORAGE_CURRENT) as [[| |user]|]; cbn; auto.
    destruct user as [|b|n|s|l|m]; cbn; auto.
    - destruct b; auto.
    - destruct (n =? 0)%Z; auto.
    - destruct (String.eqb s ""); auto.
    - destruct (m !! "isLoggedIn") as [flag|] eqn:Hflag; cbn; auto.
      destruct (truthy flag) eqn:Htrue; auto.
      right. by exists m, flag. }
  - left. split; [done|]. rewrite Hnone. cbn [truthy negb].
    eexists. split; [reflexivity|].
    split; [|apply encodeURIComponent_safe].
    apply encodeURIComponent_nonempty. unfold str_or.
    by destruct (decide (pathname = "")).
  - right. exists session, flag. rewrite Hcur. by cbn [truthy negb].
Qed.

(** ** The local tenant tip, again *)

Lemma str_or_empty (s : string) : str_or (Some s) "" = s.
Proof. unfold str_or. by destruct (decide (s = "")) as [->|]. Qed.

(** X30: the tip is [null] exactly when the occupation is not student and
    the city names neither Ottawa nor Ontario, so that a student always
    gets a tip, and Toronto, Montreal and Quebec only count for students;
    and the tip depends on the occupation and on the city only up to the
    case of their letters. *)
Theorem getLocalTenantTip_null_iff :
  (∀ occupation cityProvince,
     getLocalTenantTip occupation cityProvince = None ↔
     recognized_occupation occupation = false ∧
     includes (toLowerCase (str_or cityProvince "")) "ottawa" = false ∧
     includes (toLowerCase (str_or cityProvince "")) "ontario" = false) ∧
  (∀ o c o' c',
     toLowerCase o' = toLowerCase o → toLowerCase c' = toLowerCase c →
     getLocalTenantTip (Some o') (Some c') = getLocalTenantTip (Some o) (Some c)).
Proof.
  split; [apply getLocalTenantTip_None|].
  intros o c o' c' Ho Hc. unfold getLocalTenantTip.
  by rewrite !str_or_empty, Ho, Hc.
Qed.

Lemma getLocalTenantTip_null_iff_witness :
  getLocalTenantTip (Some "STUDENT") (Some "Ottawa, ON")
  = getLocalTenantTip (Some "student") (Some "OTTAWA, on").
Proof.
  apply (proj2 getLocalTenantTip_null_iff); reflexivity.
Defined.

(** ** Letters and white space beyond ASCII *)

(** The key of an address typed in capitals between a no-break space and
    a space. *)
Example emile_typed_key : trim (toLowerCase emile_typed) = emile.
Proof. reflexivity. Qed.

(** The no-break space is white space to the pattern check and to
    [trim]. *)
Example no_break_space_is_whitespace :
  isValidEmail no_break_inside = false ∧
  isValidEmail emile = true ∧
  isValidPhone (Some (String "160" "")) = true ∧
  register accept_all "2026-11-02T09:00:00.000Z" no_break_inside
    "correct horse" None None None None ∅
  = Done (failure "Please enter a valid email address.") ∅.
Proof. by vm_compute. Qed.

(** [login] finds the record of Émile under the address in capitals. *)
Example login_emile_capital :
  login accept_all emile_capital "wrong password" emile_and_ana
  = Done (failure "The password you entered is incorrect.") emile_and_ana ∧
  ∃ session,
    getCurrentUser
      (storage_after
         (login accept_all emile_capital "correct horse" emile_and_ana))
    = JObj session ∧
    session !! "email" = Some (JStr emile).
Proof. split; [by vm_compute|]. eexists. split; by vm_compute. Qed.

(** Ana cannot take the address of Émile in capitals, and it cannot be
    registered again. *)
Example emile_capital_taken :
  updateUserProfile accept_all rename_to_emile emile_and_ana
  = Done (failure "This email is already taken by another account.")
      emile_and_ana ∧
  register accept_all "2026-11-03T08:00:00.000Z" (" " +:+ emile_capital)
    "another password" None None None None emile_and_ana
  = Done (failure "An account with this email already exists.")
      emile_and_ana.
Proof. by vm_compute. Qed.

(** [String] of the numbers, arrays and objects that a stored address
    could be. *)
Example ToString_values :
  ToString (JNum 1000000000000000000000) = Return "1e+21" ∧
  ToString (JNum 9007199254740993) = Return "9007199254740992" ∧
  ToString (JNum 123456789012345678901) = Return "123456789012345680000" ∧
  ToString (JNum (-42)) = Return "-42" ∧
  ToString (JArr [JNum 1; JNull; JStr "a"; JArr [JBool true; JNum 2]])
    = Return "1,,a,true,2" ∧
  ToString (JObj {[ "email" := JStr "a" ]}) = Return "[object Object]" ∧
  ToString (JObj {[ "toString" := JStr "a" ]}) = Throw ∧
  getStorageSuffix
    {[ STORAGE_CURRENT :=
         TJson (JObj {[ "email" := JNum 1000000000000000000000;
                        "isLoggedIn" := JBool true ]}) ]}
  = "_1e_21".
Proof. by vm_compute. Qed.
